(** * Badminton scheduler: match formation and court lifecycle

    A shallow embedding of the scheduling engine of [BadmintonScheduler]
    (the React component of this repository, most recent revision, which has
    the manual court enable/disable switch), the proofs of the properties
    its specification states, and further properties of the code.

    The component keeps its state in React hooks; every handler reads the
    state of the last render and queues updates.  A handler is therefore
    embedded as a function from [State] to [State].  [Math.random] is an
    explicit source of numbers of the unit interval, read at a position
    that each call advances. *)

From Stdlib Require Import Ascii String QArith Qround Lqa.
From stdpp Require Import gmap strings list pretty sorting.

Close Scope Q_scope.
Open Scope nat_scope.

(** ** Host functions

    [String.prototype.localeCompare] and [String.prototype.toLowerCase]
    belong to the JavaScript host, and the collation depends on its locale.
    The engine is embedded over any choice of the two. *)

Class HostStrings := {
  localeCompare : string → string → comparison;
  toLowerCase : string → string
}.

(** Lower-casing of the letters A-Z, the other bytes unchanged. *)
Definition asciiLower (c : ascii) : ascii :=
  let n := nat_of_ascii c in
  if (65 <=? n) && (n <=? 90) then ascii_of_nat (n + 32) else c.

Fixpoint asciiLowerString (s : string) : string :=
  match s with
  | EmptyString => EmptyString
  | String c r => String (asciiLower c) (asciiLowerString r)
  end.

(** The host used to run the engine on examples: byte-wise comparison and
    lower-casing of ASCII letters. *)
Definition byteHost : HostStrings :=
  {| localeCompare := String.compare; toLowerCase := asciiLowerString |}.

(** ** Math.random

    The numbers drawn and the weights are rationals.  The rounding of the
    host's floating point can only change which index a draw gives, and
    any index of a non-empty array is given by some number of the unit
    interval; the properties below hold for every source of numbers. *)

(** A number of the half-open unit interval. *)
Definition inUnit (q : Q) : bool := Qle_bool 0 q && negb (Qle_bool 1 q).

Record U01 := { u01 : Q; u01_range : inUnit u01 = true }.

(** The numbers [Math.random()] returns, by call. *)
Definition RandomSource := nat → U01.

Definition zeroU : U01 := {| u01 := 0%Q; u01_range := eq_refl |}.
Definition halfU : U01 := {| u01 := (1 # 2)%Q; u01_range := eq_refl |}.

(** [Math.floor(Math.random() * n)] *)
Definition randomBelow (u : U01) (n : nat) : nat :=
  Z.to_nat (Qfloor (u01 u * inject_Z (Z.of_nat n))%Q).

(** ** Arrays *)

(** [Array.prototype.sort(cmp)]: the stable sort of the array, written as
    an insertion sort ([x] goes before the first element it does not
    exceed). *)
Fixpoint sortInsert {A} (cmp : A → A → comparison) (x : A) (l : list A) : list A :=
  match l with
  | [] => [x]
  | y :: ys =>
      match cmp x y with
      | Gt => y :: sortInsert cmp x ys
      | _ => x :: y :: ys
      end
  end.

Definition arraySort {A} (cmp : A → A → comparison) (l : list A) : list A :=
  foldr (sortInsert cmp) [] l.

(** [Array.prototype.join(sep)] *)
Fixpoint join (sep : string) (l : list string) : string :=
  match l with
  | [] => ""
  | x :: xs =>
      match xs with
      | [] => x
      | _ :: _ => x +:+ sep +:+ join sep xs
      end
  end.

(** [[a[i], a[j]] = [a[j], a[i]]]: the right-hand side is read first.
    [shuffle] calls it with both indices inside the array. *)
Definition swapAt (a : list string) (i j : nat) : list string :=
  match a !! i, a !! j with
  | Some ai, Some aj => <[j := ai]> (<[i := aj]> a)
  | _, _ => a
  end.

(** ** Pure helpers of the component *)

Section Helpers.
Context `{HostStrings}.

(** [uniquePreserveOrder]: the set [seen] holds lower-cased keys. *)
Fixpoint uniqueLoop (seen : list string) (l : list string) : list string :=
  match l with
  | [] => []
  | n :: rest =>
      let key := toLowerCase n in
      if bool_decide (key ∈ seen) then uniqueLoop seen rest
      else n :: uniqueLoop (key :: seen) rest
  end.

Definition uniquePreserveOrder (l : list string) : list string := uniqueLoop [] l.

(** [shuffle]: Fisher-Yates, [i] from [length - 1] down to [1]. *)
Fixpoint shuffleLoop (rnd : RandomSource) (i : nat) (a : list string) (pos : nat)
  : list string * nat :=
  match i with
  | 0 => (a, pos)
  | S i' =>
      let j := randomBelow (rnd pos) (i + 1) in
      shuffleLoop rnd i' (swapAt a i j) (S pos)
  end.

Definition shuffle (rnd : RandomSource) (arr : list string) (pos : nat)
  : list string * nat :=
  shuffleLoop rnd (length arr - 1) arr pos.

(** [getCount]: [playedCount[name] ?? 0] *)
Definition getCount (playedCount : gmap string nat) (name : string) : nat :=
  default 0 (playedCount !! name).

(** [weightOf]: [1 / (getCount(name) + 1)] *)
Definition weightOf (playedCount : gmap string nat) (name : string) : Q :=
  (1 / (inject_Z (Z.of_nat (getCount playedCount name)) + 1))%Q.

(** The [for] loop of [weightedPickIndex]. *)
Fixpoint pickLoop (weights : list Q) (r : Q) (i : nat) : option nat :=
  match weights with
  | [] => None
  | w :: ws =>
      let r' := (r - w)%Q in
      if Qle_bool r' 0 then Some i else pickLoop ws r' (S i)
  end.

(** [weightedPickIndex]: one call of [Math.random] on either path. *)
Definition weightedPickIndex (items : list string) (weightFn : string → Q)
    (rnd : RandomSource) (pos : nat) : nat * nat :=
  let weights := weightFn <$> items in
  let total := foldl Qplus 0%Q weights in
  if Qle_bool total 0 then (randomBelow (rnd pos) (length items), S pos)
  else (default (length items - 1) (pickLoop weights (u01 (rnd pos) * total)%Q 0), S pos).

(** [weightedSampleWithoutReplacement]: [k] counts the draws still to make
    ([k - picked.length]).  The drawn index is always inside [pool]
    ([weightedPickIndex_lt]), so the last branch is not taken. *)
Fixpoint sampleLoop (weightFn : string → Q) (rnd : RandomSource)
    (k : nat) (pool picked : list string) (pos : nat)
  : list string * list string * nat :=
  match k, pool with
  | S k', _ :: _ =>
      let '(idx, pos') := weightedPickIndex pool weightFn rnd pos in
      match pool !! idx with
      | Some x => sampleLoop weightFn rnd k' (delete idx pool) (picked ++ [x]) pos'
      | None => (picked, pool, pos')
      end
  | _, _ => (picked, pool, pos)
  end.

Definition weightedSampleWithoutReplacement (items : list string) (k : nat)
    (weightFn : string → Q) (rnd : RandomSource) (pos : nat)
  : list string * list string * nat :=
  sampleLoop weightFn rnd k items [] pos.

(** [teamSignature]: sort by [localeCompare], join with a bar. *)
Definition teamSignature (team : list string) : string :=
  join "|" (arraySort localeCompare team).

(** [isExactRepeatTeamWithMap]: [map[name] === sig] fails for a name the
    map does not hold. *)
Definition isExactRepeatTeamWithMap (team : list string) (map : gmap string string) : bool :=
  if bool_decide (length team ≠ 4) then false
  else
    let sig := teamSignature team in
    forallb (λ name, bool_decide (map !! name = Some sig)) team.

(** [markTeamAsStarted], as the update of the signature map it queues. *)
Definition markTeamAsStarted (team : list string) (prev : gmap string string)
  : gmap string string :=
  let sig := teamSignature team in
  foldl (λ next name, <[name := sig]> next) prev team.

(** The inner loop of [tryBreak], over the positions [tjs] of [tail]. *)
Fixpoint tryBreakInner (sigs : gmap string string) (group tail : list string)
    (gi : nat) (tjs : list nat) : option (list string * list string) :=
  match tjs with
  | [] => None
  | tj :: rest =>
      match group !! gi, tail !! tj with
      | Some g, Some t =>
          let swapped := <[gi := t]> group in
          if negb (isExactRepeatTeamWithMap swapped sigs)
          then Some (swapped, <[tj := g]> tail)
          else tryBreakInner sigs group tail gi rest
      | _, _ => tryBreakInner sigs group tail gi rest
      end
  end.

(** The outer loop of [tryBreak], over the positions [gis] of [group]. *)
Fixpoint tryBreakOuter (sigs : gmap string string) (group tail : list string)
    (gis : list nat) : option (list string * list string) :=
  match gis with
  | [] => None
  | gi :: rest =>
      match tryBreakInner sigs group tail gi (seq 0 (length tail)) with
      | Some r => Some r
      | None => tryBreakOuter sigs group tail rest
      end
  end.

(** [tryBreak], which reads the signature map of the last render. *)
Definition tryBreak (sigs : gmap string string) (group tail : list string)
  : option (list string * list string) :=
  tryBreakOuter sigs group tail (seq 0 (length group)).

(** A JavaScript number as [avgCount] returns it: a rational or [Infinity]. *)
Inductive JsNum := Finite (q : Q) | Infinity.

(** [avgCount]: the mean of the members' counts, [Infinity] for no team. *)
Definition avgCount (playedCount : gmap string nat) (team : list string) : JsNum :=
  match team with
  | [] => Infinity
  | _ :: _ =>
      let s := foldl (λ acc n, acc + getCount playedCount n) 0 team in
      Finite (inject_Z (Z.of_nat s) / inject_Z (Z.of_nat (length team)))%Q
  end.

(** The sign of [a - b]; [Infinity - Infinity] is [NaN], which [sort] takes
    as zero. *)
Definition jsCompare (a b : JsNum) : comparison :=
  match a, b with
  | Finite x, Finite y => (x ?= y)%Q
  | Finite _, Infinity => Lt
  | Infinity, Finite _ => Gt
  | Infinity, Infinity => Eq
  end.

(** [mergeRestOnceBack] *)
Definition mergeRestOnceBack (participantsBefore restOnceList : list string) : list string :=
  filter (λ p, p ∈ restOnceList) participantsBefore.

End Helpers.

(** ** State of the component *)

(** A court of the [courts] array: [{ id, name, team }], where [name] is
    missing in snapshots of older revisions and [team] is missing on an
    empty court.  An empty array is a team for the tests [!c.team] and
    [filter(Boolean)]. *)
Record Court := {
  court_id : nat;
  court_name : option string;
  court_team : option (list string)
}.

(** The hooks of the component the engine reads and writes (the two text
    inputs are left out). *)
Record State := {
  participants : list string;
  teamQueue : list (list string);
  courts : list Court;
  lastTeamSigByPlayer : gmap string string;
  priorityCarry : list string;
  restOnce : list string;
  playedCount : gmap string nat;
  disabledCourtsOnce : list nat
}.

Definition setTeam (c : Court) (t : option (list string)) : Court :=
  {| court_id := court_id c; court_name := court_name c; court_team := t |}.

(** The template literal of the default court name. *)
Definition defaultCourtName (i : nat) : string := "코트 " +:+ pretty i.

Definition isCourtDisabled (disabled : list nat) (courtId : nat) : bool :=
  bool_decide (courtId ∈ disabled).

(** [courts.findIndex((c) => c.id === courtId)], with the court found. *)
Definition findCourt (cs : list Court) (courtId : nat) : option (nat * Court) :=
  list_find (λ c, court_id c = courtId) cs.

(** ** Handlers *)

Section Engine.
Context `{HostStrings}.

(** [getAllNamesSet] *)
Definition getAllNamesSet (st : State) : gset string :=
  list_to_set (participants st)
  ∪ list_to_set (concat (teamQueue st))
  ∪ list_to_set (concat (omap court_team (courts st)))
  ∪ list_to_set (priorityCarry st).

(** [ensureCountsFor], as the update of the count map it queues. *)
Definition ensureCountsFor (names : list string) (prev : gmap string nat) : gmap string nat :=
  foldl (λ next n, match next !! n with None => <[n := 0]> next | Some _ => next end)
        prev names.

(** [addNamesNewOnly], called with an array of names. *)
Definition addNamesNewOnly (names : list string) (st : State) : State :=
  let all := getAllNamesSet st in
  let newOnes := filter (λ n, n ∉ all) (uniquePreserveOrder names) in
  if bool_decide (length newOnes = 0) then st
  else
    {| participants := participants st ++ newOnes;
       teamQueue := teamQueue st;
       courts := courts st;
       lastTeamSigByPlayer := lastTeamSigByPlayer st;
       priorityCarry := priorityCarry st;
       restOnce := restOnce st;
       playedCount := ensureCountsFor newOnes (playedCount st);
       disabledCourtsOnce := disabledCourtsOnce st |}.

(** [handleConfirmNames], on the names the input parses to: the waiting
    pool is replaced, the teams on the courts stay. *)
Definition handleConfirmNames (names : list string) (st : State) : State :=
  let uniq := uniquePreserveOrder names in
  {| participants := uniq;
     teamQueue := [];
     courts := courts st;
     lastTeamSigByPlayer := lastTeamSigByPlayer st;
     priorityCarry := [];
     restOnce := [];
     playedCount := ensureCountsFor uniq (playedCount st);
     disabledCourtsOnce := disabledCourtsOnce st |}.

(** [handleRemoveParticipant] *)
Definition handleRemoveParticipant (name : string) (index : nat) (st : State) : State :=
  {| participants := delete index (participants st);
     teamQueue := teamQueue st;
     courts := courts st;
     lastTeamSigByPlayer := lastTeamSigByPlayer st;
     priorityCarry := filter (λ n, n ≠ name) (priorityCarry st);
     restOnce := filter (λ n, n ≠ name) (restOnce st);
     playedCount := playedCount st;
     disabledCourtsOnce := disabledCourtsOnce st |}.

(** [applyCourtCount], on the number the count input parses to. *)
Definition applyCourtCount (requested : Z) (st : State) : State :=
  let n := Z.to_nat (Z.max 0 (Z.min 32 requested)) in
  let oldLen := length (courts st) in
  if bool_decide (n = oldLen) then st
  else if bool_decide (oldLen < n) then
    let added :=
      (λ i, {| court_id := i; court_name := Some (defaultCourtName i); court_team := None |})
        <$> seq (oldLen + 1) (n - oldLen) in
    {| participants := participants st;
       teamQueue := teamQueue st;
       courts := courts st ++ added;
       lastTeamSigByPlayer := lastTeamSigByPlayer st;
       priorityCarry := priorityCarry st;
       restOnce := restOnce st;
       playedCount := playedCount st;
       disabledCourtsOnce := disabledCourtsOnce st |}
  else
    let toRemove := drop n (courts st) in
    let survivors := take n (courts st) in
    let displacedTeams := omap court_team toRemove in
    let mergedQueue := displacedTeams ++ teamQueue st in
    {| participants := participants st;
       teamQueue := mergedQueue;
       courts :=
         imap (λ idx c,
                 {| court_id := idx + 1;
                    court_name := Some (default (defaultCourtName (idx + 1)) (court_name c));
                    court_team := court_team c |}) survivors;
       lastTeamSigByPlayer := lastTeamSigByPlayer st;
       priorityCarry := priorityCarry st;
       restOnce := restOnce st;
       playedCount := playedCount st;
       disabledCourtsOnce := filter (λ id, id ≤ n) (disabledCourtsOnce st) |}.

(** [toggleDisableCourtOnce] *)
Definition toggleDisableCourtOnce (courtId : nat) (st : State) : State :=
  let currentlyDisabled := isCourtDisabled (disabledCourtsOnce st) courtId in
  if negb currentlyDisabled then
    let '(nextCourts, nextQueue) :=
      match findCourt (courts st) courtId with
      | Some (idx, c) =>
          match court_team c with
          | Some (m :: ms) =>
              (<[idx := setTeam c None]> (courts st), (m :: ms) :: teamQueue st)
          | _ => (courts st, teamQueue st)
          end
      | None => (courts st, teamQueue st)
      end in
    {| participants := participants st;
       teamQueue := nextQueue;
       courts := nextCourts;
       lastTeamSigByPlayer := lastTeamSigByPlayer st;
       priorityCarry := priorityCarry st;
       restOnce := restOnce st;
       playedCount := playedCount st;
       disabledCourtsOnce := disabledCourtsOnce st ++ [courtId] |}
  else
    let '(nextCourts, nextQueue, sigs) :=
      match findCourt (courts st) courtId with
      | Some (idx, c) =>
          match court_team c, teamQueue st with
          | None, nextTeam :: rest =>
              (<[idx := setTeam c (Some nextTeam)]> (courts st), rest,
               markTeamAsStarted nextTeam (lastTeamSigByPlayer st))
          | _, _ => (courts st, teamQueue st, lastTeamSigByPlayer st)
          end
      | None => (courts st, teamQueue st, lastTeamSigByPlayer st)
      end in
    {| participants := participants st;
       teamQueue := nextQueue;
       courts := nextCourts;
       lastTeamSigByPlayer := sigs;
       priorityCarry := priorityCarry st;
       restOnce := restOnce st;
       playedCount := playedCount st;
       disabledCourtsOnce := filter (λ id, id ≠ courtId) (disabledCourtsOnce st) |}.

(** The count update of [handleFinishCourt]:
    [next[name] = (next[name] || 0) + 1] for each name of the team. *)
Definition bumpCounts (team : list string) (prev : gmap string nat) : gmap string nat :=
  foldl (λ next name, <[name := default 0 (next !! name) + 1]> next) prev team.

(** [handleFinishCourt] *)
Definition handleFinishCourt (courtId : nat) (st : State) : State :=
  match findCourt (courts st) courtId with
  | None => st
  | Some (idx, c) =>
      let finishedTeam := default [] (court_team c) in
      let '(nextCourts, nextQueue, sigs) :=
        match teamQueue st with
        | nextTeam :: rest =>
            if negb (isCourtDisabled (disabledCourtsOnce st) courtId) then
              (<[idx := setTeam c (Some nextTeam)]> (courts st), rest,
               markTeamAsStarted nextTeam (lastTeamSigByPlayer st))
            else
              (<[idx := setTeam c None]> (courts st), teamQueue st, lastTeamSigByPlayer st)
        | [] => (<[idx := setTeam c None]> (courts st), teamQueue st, lastTeamSigByPlayer st)
        end in
      {| participants := participants st ++ finishedTeam;
         teamQueue := nextQueue;
         courts := nextCourts;
         lastTeamSigByPlayer := sigs;
         priorityCarry := priorityCarry st;
         restOnce := restOnce st;
         playedCount := bumpCounts finishedTeam (playedCount st);
         disabledCourtsOnce := disabledCourtsOnce st |}
  end.

(** [handleRestOnce] *)
Definition handleRestOnce (name : string) (st : State) : State :=
  {| participants := participants st;
     teamQueue := teamQueue st;
     courts := courts st;
     lastTeamSigByPlayer := lastTeamSigByPlayer st;
     priorityCarry := priorityCarry st;
     restOnce :=
       if bool_decide (name ∈ restOnce st) then filter (λ n, n ≠ name) (restOnce st)
       else restOnce st ++ [name];
     playedCount := playedCount st;
     disabledCourtsOnce := disabledCourtsOnce st |}.

End Engine.

(** ** Team formation: [handleMakeTeams] *)

Section Formation.
Context `{HostStrings}.

Definition eligibleParticipants (st : State) : list string :=
  filter (λ p, p ∉ restOnce st) (participants st).

Definition eligiblePriorityCarry (st : State) : list string :=
  filter (λ p, p ∉ restOnce st) (priorityCarry st).

Definition totalAvailable (st : State) : nat :=
  length (eligibleParticipants st) + length (eligiblePriorityCarry st).

(** The generic pool at the start: the eligible waiting players that the
    eligible carry-over does not include. *)
Definition others (st : State) : list string :=
  filter (λ p, p ∉ eligiblePriorityCarry st) (eligibleParticipants st).

(** [isExactRepeatTeam(team) ? tryBreak(team, tail) : null] *)
Definition breakIfRepeat (sigs : gmap string string) (team tail : list string)
  : option (list string * list string) :=
  if isExactRepeatTeamWithMap team sigs then tryBreak sigs team tail else None.

(** Step 1: while the priority list has four names, its first four make a
    team.  The result is the priority list, the pool and the teams. *)
Fixpoint priorityLoop (sigs : gmap string string) (priorityList pool : list string)
    (out : list (list string)) : list string * list string * list (list string) :=
  match priorityList with
  | a :: b :: c :: d :: rest =>
      let team := [a; b; c; d] in
      match breakIfRepeat sigs team pool with
      | Some (team', pool') => priorityLoop sigs rest pool' (out ++ [team'])
      | None => priorityLoop sigs rest pool (out ++ [team])
      end
  | _ => (priorityList, pool, out)
  end.

(** Step 2: one to three priority players left are topped up from the pool
    when it has enough players.  The result also has the next position of
    the random source. *)
Definition priorityTopUp (sigs : gmap string string) (weightFn : string → Q)
    (rnd : RandomSource) (priorityList pool : list string)
    (out : list (list string)) (pos : nat)
  : list string * list string * list (list string) * nat :=
  if bool_decide (0 < length priorityList) then
    let need := 4 - length priorityList in
    if bool_decide (need ≤ length pool) then
      let '(picked, rest, pos') :=
        weightedSampleWithoutReplacement pool need weightFn rnd pos in
      let team := priorityList ++ picked in
      match breakIfRepeat sigs team rest with
      | Some (team', pool') => ([], pool', out ++ [team'], pos')
      | None => ([], rest, out ++ [team], pos')
      end
    else (priorityList, pool, out, pos)
  else (priorityList, pool, out, pos).

(** Step 3: the [while (pool.length >= 4)] loop.  A pass that cannot break a
    repeat and has more than four players reshuffles the same pool and goes
    round again, so the loop is run on [fuel] passes; [None] is the loop
    still running when the fuel is spent. *)
Fixpoint genericLoop (sigs : gmap string string) (weightFn : string → Q)
    (rnd : RandomSource) (fuel : nat) (pool : list string)
    (out : list (list string)) (pos : nat)
  : option (list string * list (list string) * nat) :=
  if bool_decide (4 ≤ length pool) then
    match fuel with
    | 0 => None
    | S fuel' =>
        let '(picked, rest, pos1) :=
          weightedSampleWithoutReplacement pool 4 weightFn rnd pos in
        if isExactRepeatTeamWithMap picked sigs then
          match tryBreak sigs picked rest with
          | Some (group, tail) =>
              genericLoop sigs weightFn rnd fuel' tail (out ++ [group]) pos1
          | None =>
              if bool_decide (4 < length pool) then
                let '(pool', pos2) := shuffle rnd pool pos1 in
                genericLoop sigs weightFn rnd fuel' pool' out pos2
              else genericLoop sigs weightFn rnd fuel' rest (out ++ [picked]) pos1
          end
        else genericLoop sigs weightFn rnd fuel' rest (out ++ [picked]) pos1
    end
  else Some (pool, out, pos).

(** What steps 1 to 4 produce: the priority teams, the generic teams and
    the players left over. *)
Record Formed := {
  priorityTeamsOut : list (list string);
  otherTeamsOut : list (list string);
  leftOver : list string
}.

(** Steps 1 to 4 of [handleMakeTeams]. *)
Definition formTeams (rnd : RandomSource) (fuel : nat) (st : State) (pos : nat)
  : option (Formed * nat) :=
  let sigs := lastTeamSigByPlayer st in
  let weightFn := weightOf (playedCount st) in
  let '(priorityList1, pool1, out1) :=
    priorityLoop sigs (eligiblePriorityCarry st) (others st) [] in
  let '(priorityList2, pool2, out2, pos2) :=
    priorityTopUp sigs weightFn rnd priorityList1 pool1 out1 pos in
  match genericLoop sigs weightFn rnd fuel pool2 [] pos2 with
  | None => None
  | Some (pool3, otherOut, pos3) =>
      Some ({| priorityTeamsOut := out2;
               otherTeamsOut := otherOut;
               leftOver := priorityList2 ++ pool3 |}, pos3)
  end.

(** The comparison function of the sort of step 5. *)
Definition compareAvg (playedCount : gmap string nat) (a b : list string) : comparison :=
  jsCompare (avgCount playedCount a) (avgCount playedCount b).

(** Either [for (const c of nextCourts)] loop of step 5: a court that has
    no team and is not disabled takes the next team, which is recorded as
    started.  The result is the courts, the teams not placed and the
    signature map. *)
Fixpoint assignLoop (disabled : list nat) (cs : list Court)
    (teams : list (list string)) (sigs : gmap string string)
  : list Court * list (list string) * gmap string string :=
  match cs with
  | [] => ([], teams, sigs)
  | c :: rest =>
      match court_team c, teams with
      | None, nextTeam :: teams' =>
          if negb (isCourtDisabled disabled (court_id c)) then
            let '(cs', unplaced, sigs') :=
              assignLoop disabled rest teams' (markTeamAsStarted nextTeam sigs) in
            (setTeam c (Some nextTeam) :: cs', unplaced, sigs')
          else
            let '(cs', unplaced, sigs') := assignLoop disabled rest teams sigs in
            (c :: cs', unplaced, sigs')
      | _, _ =>
          let '(cs', unplaced, sigs') := assignLoop disabled rest teams sigs in
          (c :: cs', unplaced, sigs')
      end
  end.

(** Step 5 and the state updates that end [handleMakeTeams]. *)
Definition seatTeams (st : State) (f : Formed) : State :=
  let sortedOther := arraySort (compareAvg (playedCount st)) (otherTeamsOut f) in
  let newTeamsInOrder := priorityTeamsOut f ++ sortedOther in
  let '(courts1, existingQueue, sigs1) :=
    assignLoop (disabledCourtsOnce st) (courts st) (teamQueue st)
               (lastTeamSigByPlayer st) in
  let '(courts2, queueAfterAssign, sigs2) :=
    assignLoop (disabledCourtsOnce st) courts1 newTeamsInOrder sigs1 in
  {| participants := mergeRestOnceBack (participants st) (restOnce st);
     teamQueue := existingQueue ++ queueAfterAssign;
     courts := courts2;
     lastTeamSigByPlayer := sigs2;
     priorityCarry := leftOver f;
     restOnce := [];
     playedCount := playedCount st;
     disabledCourtsOnce := disabledCourtsOnce st |}.

Definition clearRestOnce (st : State) : State :=
  {| participants := participants st;
     teamQueue := teamQueue st;
     courts := courts st;
     lastTeamSigByPlayer := lastTeamSigByPlayer st;
     priorityCarry := priorityCarry st;
     restOnce := [];
     playedCount := playedCount st;
     disabledCourtsOnce := disabledCourtsOnce st |}.

(** [handleMakeTeams]: the state after the run and the next position of the
    random source, or [None] when the loop of step 3 outlives [fuel]. *)
Definition handleMakeTeams (rnd : RandomSource) (fuel : nat) (st : State) (pos : nat)
  : option (State * nat) :=
  if bool_decide (totalAvailable st < 4) then Some (clearRestOnce st, pos)
  else
    match formTeams rnd fuel st pos with
    | None => None
    | Some (f, pos') => Some (seatTeams st f, pos')
    end.

End Formation.

(** ** Other commands *)

(** [l.splice(i, 0, x)] for an index that is not negative: [x] goes in
    front of position [i], at the end when [i] is beyond it. *)
Definition spliceIn {A} (i : nat) (x : A) (l : list A) : list A :=
  take i l ++ x :: drop i l.

(** The payload of a drag, as the chips of the component write it
    ([{ name, from, fromIndex | teamIndex | courtId, memberIndex }]). *)
Inductive DragSource :=
  | FromParticipants (fromIndex : nat)
  | FromQueue (teamIndex memberIndex : nat)
  | FromCourt (courtId memberIndex : nat)
  | FromPriority (fromIndex : nat).

Record DragData := { drag_name : string; drag_from : DragSource }.

(** The targets [canDrop] is asked about. *)
Inductive DropTarget :=
  | ToParticipants
  | ToQueue (teamIndex : nat)
  | ToCourt (courtId : nat)
  | ToPriority.

(** [canDrop], for a payload and a target that are there. *)
Definition canDrop (source : DragSource) (target : DropTarget) : bool :=
  match source, target with
  | FromParticipants _, ToParticipants => false
  | FromQueue teamIndex _, ToQueue teamIndex' => negb (bool_decide (teamIndex = teamIndex'))
  | FromCourt courtId _, ToCourt courtId' => negb (bool_decide (courtId = courtId'))
  | FromPriority _, ToPriority => false
  | _, _ => true
  end.

(** [if (replaced)]: a name that is there and is not the empty string. *)
Definition truthy (replaced : option string) : option string :=
  match replaced with
  | Some r => if bool_decide (r = "") then None else Some r
  | None => None
  end.

Section OtherCommands.
Context `{HostStrings}.

Definition setParticipants (v : list string) (st : State) : State :=
  {| participants := v; teamQueue := teamQueue st; courts := courts st;
     lastTeamSigByPlayer := lastTeamSigByPlayer st; priorityCarry := priorityCarry st;
     restOnce := restOnce st; playedCount := playedCount st;
     disabledCourtsOnce := disabledCourtsOnce st |}.

Definition setTeamQueue (v : list (list string)) (st : State) : State :=
  {| participants := participants st; teamQueue := v; courts := courts st;
     lastTeamSigByPlayer := lastTeamSigByPlayer st; priorityCarry := priorityCarry st;
     restOnce := restOnce st; playedCount := playedCount st;
     disabledCourtsOnce := disabledCourtsOnce st |}.

Definition setCourts (v : list Court) (st : State) : State :=
  {| participants := participants st; teamQueue := teamQueue st; courts := v;
     lastTeamSigByPlayer := lastTeamSigByPlayer st; priorityCarry := priorityCarry st;
     restOnce := restOnce st; playedCount := playedCount st;
     disabledCourtsOnce := disabledCourtsOnce st |}.

Definition setPriorityCarry (v : list string) (st : State) : State :=
  {| participants := participants st; teamQueue := teamQueue st; courts := courts st;
     lastTeamSigByPlayer := lastTeamSigByPlayer st; priorityCarry := v;
     restOnce := restOnce st; playedCount := playedCount st;
     disabledCourtsOnce := disabledCourtsOnce st |}.

Definition setPlayedCount (v : gmap string nat) (st : State) : State :=
  {| participants := participants st; teamQueue := teamQueue st; courts := courts st;
     lastTeamSigByPlayer := lastTeamSigByPlayer st; priorityCarry := priorityCarry st;
     restOnce := restOnce st; playedCount := v;
     disabledCourtsOnce := disabledCourtsOnce st |}.

(** [handleRenameCourt] *)
Definition handleRenameCourt (courtId : nat) (name : string) (st : State) : State :=
  setCourts
    ((λ c, if bool_decide (court_id c = courtId)
           then {| court_id := court_id c; court_name := Some name;
                   court_team := court_team c |}
           else c) <$> courts st) st.

(** [removeFromSource].  The update of the queue reads
    [next[teamIndex].splice], which throws when the queue has no team at
    that index: [None] is that failure. *)
Definition removeFromSource (source : DragSource) (st : State) : option State :=
  match source with
  | FromParticipants fromIndex =>
      Some (setParticipants (delete fromIndex (participants st)) st)
  | FromQueue teamIndex memberIndex =>
      match teamQueue st !! teamIndex with
      | None => None
      | Some t =>
          let t' := delete memberIndex t in
          Some (setTeamQueue
                  (if bool_decide (length t' = 0) then delete teamIndex (teamQueue st)
                   else <[teamIndex := t']> (teamQueue st)) st)
      end
  | FromCourt courtId memberIndex =>
      Some (setCourts
              match findCourt (courts st) courtId with
              | Some (idx, c) =>
                  match court_team c with
                  | Some t =>
                      let t' := delete memberIndex t in
                      <[idx := setTeam c (if bool_decide (length t' = 0) then None
                                          else Some t')]> (courts st)
                  | None => courts st
                  end
              | None => courts st
              end st)
  | FromPriority fromIndex =>
      Some (setPriorityCarry (delete fromIndex (priorityCarry st)) st)
  end.

(** [addToParticipants]: [atIndex] is a position or is missing. *)
Definition addToParticipants (name : string) (atIndex : option nat) (st : State) : State :=
  let filtered := filter (λ n, n ≠ name) (participants st) in
  {| participants :=
       match atIndex with
       | Some i => spliceIn (i `min` length filtered) name filtered
       | None => filtered ++ [name]
       end;
     teamQueue := teamQueue st;
     courts := courts st;
     lastTeamSigByPlayer := lastTeamSigByPlayer st;
     priorityCarry := filter (λ n, n ≠ name) (priorityCarry st);
     restOnce := restOnce st;
     playedCount := ensureCountsFor [name] (playedCount st);
     disabledCourtsOnce := disabledCourtsOnce st |}.

(** [addToCourt]: [memberIndex] is a position or is missing. *)
Definition addToCourt (name : string) (courtId : nat) (memberIndex : option nat)
    (st : State) : State :=
  if isCourtDisabled (disabledCourtsOnce st) courtId then st
  else
    let pushed idx c team :=
      if bool_decide (4 ≤ length team) then courts st
      else <[idx := setTeam c (Some (team ++ [name]))]> (courts st) in
    setPlayedCount (ensureCountsFor [name] (playedCount st))
      (setCourts
         match findCourt (courts st) courtId with
         | None => courts st
         | Some (idx, c) =>
             let team := default [] (court_team c) in
             match memberIndex with
             | Some mi =>
                 match team !! mi with
                 | Some _ => <[idx := setTeam c (Some (<[mi := name]> team))]> (courts st)
                 | None => pushed idx c team
                 end
             | None => pushed idx c team
             end
         end st).

(** [returnReplacedToSource], for a payload that is there.  With a court as
    the source the update gives every court without a team the empty
    array as its team.  With a queue team as the source, an index beyond
    the end of the queue would leave a hole in the array, a state the
    model does not have: [None]. *)
Definition returnReplacedToSource (replaced : string) (source : DragSource) (st : State)
  : option State :=
  if bool_decide (replaced = "") then Some st
  else
    match source with
    | FromParticipants fromIndex => Some (addToParticipants replaced (Some fromIndex) st)
    | FromQueue teamIndex memberIndex =>
        match teamQueue st !! teamIndex with
        | Some t =>
            Some (setPlayedCount (ensureCountsFor [replaced] (playedCount st))
                    (setTeamQueue
                       (<[teamIndex := spliceIn memberIndex replaced t]> (teamQueue st)) st))
        | None =>
            if bool_decide (teamIndex = length (teamQueue st)) then
              Some (setPlayedCount (ensureCountsFor [replaced] (playedCount st))
                      (setTeamQueue (teamQueue st ++ [[replaced]]) st))
            else None
        end
    | FromCourt courtId memberIndex =>
        let next := (λ c, setTeam c (Some (default [] (court_team c)))) <$> courts st in
        Some (setPlayedCount (ensureCountsFor [replaced] (playedCount st))
                (setCourts
                   match findCourt next courtId with
                   | Some (idx, c) =>
                       <[idx := setTeam c (Some (spliceIn memberIndex replaced
                                                   (default [] (court_team c))))]> next
                   | None => next
                   end st))
    | FromPriority fromIndex =>
        Some (setPriorityCarry (spliceIn fromIndex replaced (priorityCarry st)) st)
    end.

(** [handleDropToParticipants], for a payload that is there and a drop
    outside the area of the carry-over. *)
Definition handleDropToParticipants (data : DragData) (st : State) : option State :=
  if negb (canDrop (drag_from data) ToParticipants) then Some st
  else
    st1 ← removeFromSource (drag_from data) st;
    Some (addToParticipants (drag_name data) None st1).

(** [handleDropToCourtContainer] *)
Definition handleDropToCourtContainer (data : DragData) (courtId : nat) (st : State)
  : option State :=
  if negb (canDrop (drag_from data) (ToCourt courtId))
     || isCourtDisabled (disabledCourtsOnce st) courtId then Some st
  else
    let currentLen :=
      match findCourt (courts st) courtId with
      | Some (_, c) => length (default [] (court_team c))
      | None => 0
      end in
    if bool_decide (4 ≤ currentLen) then Some st
    else
      st1 ← removeFromSource (drag_from data) st;
      Some (addToCourt (drag_name data) courtId None st1).

(** [handleDropToCourtChip] *)
Definition handleDropToCourtChip (data : DragData) (courtId memberIndex : nat) (st : State)
  : option State :=
  if negb (canDrop (drag_from data) (ToCourt courtId))
     || isCourtDisabled (disabledCourtsOnce st) courtId then Some st
  else
    let replaced :=
      match findCourt (courts st) courtId with
      | Some (_, c) => default [] (court_team c) !! memberIndex
      | None => None
      end in
    st1 ← removeFromSource (drag_from data) st;
    let st2 := addToCourt (drag_name data) courtId (Some memberIndex) st1 in
    match truthy replaced with
    | Some r => returnReplacedToSource r (drag_from data) st2
    | None => Some st2
    end.

(** [handleDropToPriorityContainer] *)
Definition handleDropToPriorityContainer (data : DragData) (st : State) : option State :=
  if negb (canDrop (drag_from data) ToPriority) then Some st
  else
    st1 ← removeFromSource (drag_from data) st;
    Some (setPriorityCarry
            (drag_name data :: filter (λ n, n ≠ drag_name data) (priorityCarry st1)) st1).

(** [handleDropToPriorityChip]: the filter of the update reads the name and
    the index of each entry. *)
Definition handleDropToPriorityChip (data : DragData) (memberIndex : nat) (st : State)
  : option State :=
  if negb (canDrop (drag_from data) ToPriority) then Some st
  else
    let replaced := priorityCarry st !! memberIndex in
    st1 ← removeFromSource (drag_from data) st;
    let kept :=
      omap (λ '(i, n), if bool_decide (i ≠ memberIndex ∧ n ≠ drag_name data)
                       then Some n else None)
           (imap pair (priorityCarry st1)) in
    let st2 := setPriorityCarry (drag_name data :: kept) st1 in
    match truthy replaced with
    | Some r => returnReplacedToSource r (drag_from data) st2
    | None => Some st2
    end.

(** The test that disables the button that makes teams:
    [participants.length + priorityCarry.length - restOnce.length < 4]. *)
Definition makeTeamsDisabled (st : State) : bool :=
  bool_decide (Z.of_nat (length (participants st))
               + Z.of_nat (length (priorityCarry st))
               - Z.of_nat (length (restOnce st)) < 4)%Z.

End OtherCommands.

(** ** Vocabulary of the specification *)

(** Courts are numbered by position and only numbered courts are disabled:
    what the initial state has and every command keeps. *)
Definition courtsNumbered (st : State) : Prop :=
  court_id <$> courts st = seq 1 (length (courts st)) ∧
  ∀ id, id ∈ disabledCourtsOnce st → 1 ≤ id ≤ length (courts st).

(** A court that takes a team in a formation run: it has no team and its
    id is not disabled. *)
Definition isFree (disabled : list nat) (c : Court) : Prop :=
  court_team c = None ∧ court_id c ∉ disabled.

Global Instance isFree_dec disabled c : Decision (isFree disabled c).
Proof. unfold isFree. apply _. Defined.



(** Every entry of the four places that list players: the waiting pool,
    the carry-over, the queued teams and the teams on the courts. *)
Definition allPlayers (st : State) : list string :=
  participants st ++ priorityCarry st
  ++ concat (teamQueue st) ++ concat (omap court_team (courts st)).

(** The name on the chip a payload points to, as the component renders
    the state. *)
Definition chipAt (source : DragSource) (st : State) : option string :=
  match source with
  | FromParticipants fromIndex => participants st !! fromIndex
  | FromQueue teamIndex memberIndex => t ← teamQueue st !! teamIndex; t !! memberIndex
  | FromCourt courtId memberIndex =>
      '(_, c) ← findCourt (courts st) courtId; t ← court_team c; t !! memberIndex
  | FromPriority fromIndex => priorityCarry st !! fromIndex
  end.

(** ** Example states *)

(** The state the component starts in. *)
Definition emptyState : State :=
  {| participants := []; teamQueue := [];
     courts := [ {| court_id := 1; court_name := Some (defaultCourtName 1); court_team := None |};
                 {| court_id := 2; court_name := Some (defaultCourtName 2); court_team := None |} ];
     lastTeamSigByPlayer := ∅; priorityCarry := []; restOnce := [];
     playedCount := ∅; disabledCourtsOnce := [] |}.

Definition rndZero : RandomSource := λ _, zeroU.
Definition rndHalf : RandomSource := λ _, halfU.

(** A click on the button that makes teams, with the host of the examples
    and draws that are all 0. *)
Definition makeTeams (st : State) : State :=
  match handleMakeTeams (H:=byteHost) rndZero 32 st 0 with
  | Some (st', _) => st'
  | None => st
  end.

(** Nine players confirmed in the initial state. *)
Definition nineState : State :=
  handleConfirmNames (H:=byteHost) ["A"; "B"; "C"; "D"; "E"; "F"; "G"; "H"; "I"] emptyState.


(** The example of the specification for a run with too few players. *)
Definition fewState : State :=
  {| participants := ["Y"; "Z"]; teamQueue := [];
     courts := courts emptyState;
     lastTeamSigByPlayer := ∅; priorityCarry := ["X"]; restOnce := ["Y"];
     playedCount := ∅; disabledCourtsOnce := [] |}.

Definition courtWith (i : nat) (t : option (list string)) : Court :=
  {| court_id := i; court_name := Some (defaultCourtName i); court_team := t |}.

(** Three courts, the last two with a team, and one team in the queue. *)
Definition resizeState : State :=
  {| participants := [];
     teamQueue := [["Q1"; "Q2"; "Q3"; "Q4"]];
     courts := [courtWith 1 None;
                courtWith 2 (Some ["A1"; "A2"; "A3"; "A4"]);
                courtWith 3 (Some ["B1"; "B2"; "B3"; "B4"])];
     lastTeamSigByPlayer := ∅; priorityCarry := []; restOnce := [];
     playedCount := ∅; disabledCourtsOnce := [3] |}.


Definition fiveNames : list string := ["A"; "B"; "C"; "D"; "E"].

(** The name list is confirmed a second time while its first team plays.
    When that team is finished its four players are in the waiting pool
    twice, and the next run seats a team that lists [A] twice on court 2
    and carries [D] over. *)
Definition twiceState : State :=
  makeTeams
    (handleFinishCourt (H:=byteHost) 1
       (handleConfirmNames (H:=byteHost) fiveNames
          (makeTeams (handleConfirmNames (H:=byteHost) fiveNames emptyState)))).

(** Both courts of [twiceState] are finished: [D] waits and is carried
    over. *)
Definition overlapState : State :=
  handleFinishCourt (H:=byteHost) 2 (handleFinishCourt (H:=byteHost) 1 twiceState).

(** From the initial state to a waiting pool of five entries [A] whose
    last team was four entries [A], by the buttons of the component: the
    list [A] is confirmed each time a team with [A] plays, [B] is removed
    by hand, and the team of four entries [A] is seated once. *)
Definition stuckState : State :=
  let confirmA := handleConfirmNames (H:=byteHost) ["A"] in
  let finish1 := handleFinishCourt (H:=byteHost) 1 in
  let s1 := makeTeams (handleConfirmNames (H:=byteHost) ["A"; "B"; "C"; "D"] emptyState) in
  let s2 := makeTeams (finish1 (confirmA s1)) in
  let s3 := makeTeams (finish1 (confirmA s2)) in
  let s4 := handleRemoveParticipant "B" 4 (finish1 (confirmA s3)) in
  let s5 := makeTeams s4 in
  finish1 (confirmA s5).

(** Nine players after a run, with a third court added: two courts play
    and [I] is carried over. *)
Definition threeCourtState : State := applyCourtCount 3 (makeTeams nineState).

(** [J] arrives late and waits. *)
Definition lateState : State := addNamesNewOnly (H:=byteHost) ["J"] threeCourtState.

(** Five players wait; [A] is set at rest and then dragged from the
    waiting pool to the area of the carry-over. *)
Definition restingCarryState : State :=
  default emptyState
    (handleDropToPriorityContainer
       {| drag_name := "A"; drag_from := FromParticipants 0 |}
       (handleRestOnce "A" (handleConfirmNames (H:=byteHost) fiveNames emptyState))).

(** The two teams of the nine players are moved to the queue by setting
    the number of courts to 0; then [A], [B] and [C] are dragged from the
    first queued team to the waiting pool, which leaves [D] alone in it. *)
Definition loneQueuedState : State :=
  let toPool n st :=
    default st (handleDropToParticipants
                  {| drag_name := n; drag_from := FromQueue 0 0 |} st) in
  toPool "C" (toPool "B" (toPool "A" (applyCourtCount 0 (makeTeams nineState)))).

(** * Properties *)

(** ** Arrays and random draws *)

Section ArrayFacts.
Context {A : Type}.
Implicit Types (cmp : A → A → comparison) (l : list A).

Lemma sortInsert_perm cmp x l : sortInsert cmp x l ≡ₚ x :: l.
Proof.
  induction l as [|y ys IH]; simpl; [done|].
  destruct (cmp x y); try done.
  rewrite IH. apply Permutation_swap.
Qed.

Lemma arraySort_perm cmp l : arraySort cmp l ≡ₚ l.
Proof.
  induction l as [|x xs IH]; simpl; [done|].
  rewrite sortInsert_perm. by constructor.
Qed.

Lemma arraySort_length cmp l : length (arraySort cmp l) = length l.
Proof. apply Permutation_length, arraySort_perm. Qed.



End ArrayFacts.

Lemma randomBelow_lt (u : U01) (n : nat) : 0 < n → randomBelow u n < n.
Proof.
  intros Hn. unfold randomBelow.
  destruct u as [q Hq]; cbn [u01]. unfold inUnit in Hq.
  apply andb_true_iff in Hq as [H0 H1].
  apply Qle_bool_iff in H0. apply negb_true_iff in H1.
  assert (Hlt : (q < 1)%Q).
  { apply Qnot_le_lt. intros Hc. apply Qle_bool_iff in Hc. congruence. }
  set (m := inject_Z (Z.of_nat n)).
  assert (Hm : (0 < m)%Q).
  { unfold m. rewrite <- (Zlt_Qlt 0). lia. }
  assert (Hqm : (q * m < m)%Q).
  { apply Qlt_le_trans with (1 * m)%Q.
    - apply Qmult_lt_compat_r; assumption.
    - rewrite Qmult_1_l. apply Qle_refl. }
  assert (Hnn : (0 <= q * m)%Q).
  { apply Qmult_le_0_compat; [assumption|]. by apply Qlt_le_weak. }
  assert (Hf : (Qfloor (q * m) < Z.of_nat n)%Z).
  { rewrite Zlt_Qlt. eapply Qle_lt_trans; [apply Qfloor_le|exact Hqm]. }
  assert (Hf0 : (0 <= Qfloor (q * m))%Z).
  { rewrite <- (Qfloor_Z 0). by apply Qfloor_resp_le. }
  lia.
Qed.

Lemma swapAt_perm (a : list string) i j : swapAt a i j ≡ₚ a.
Proof.
  unfold swapAt. destruct (a !! i) as [ai|] eqn:Ei; [|done].
  destruct (a !! j) as [aj|] eqn:Ej; [|done].
  by apply Permutation_insert_swap.
Qed.

Lemma shuffleLoop_perm rnd i (a : list string) pos :
  (shuffleLoop rnd i a pos).1 ≡ₚ a.
Proof.
  revert a pos. induction i as [|i IH]; intros a pos; simpl; [done|].
  rewrite IH. apply swapAt_perm.
Qed.

(** [shuffle] returns the names it was given, in some order. *)
Lemma shuffle_perm rnd (arr : list string) pos : (shuffle rnd arr pos).1 ≡ₚ arr.
Proof. apply shuffleLoop_perm. Qed.

Lemma pickLoop_bound ws r i k : pickLoop ws r i = Some k → k < i + length ws.
Proof.
  revert r i. induction ws as [|w ws IH]; intros r i; simpl; [done|].
  destruct (Qle_bool (r - w) 0).
  - intros [= <-]. lia.
  - intros Hk. apply IH in Hk. lia.
Qed.

(** The index [weightedPickIndex] draws is inside a non-empty array. *)
Lemma weightedPickIndex_lt items weightFn rnd pos :
  0 < length items → (weightedPickIndex items weightFn rnd pos).1 < length items.
Proof.
  intros Hlen. unfold weightedPickIndex.
  destruct (Qle_bool _ 0); cbn [fst].
  - by apply randomBelow_lt.
  - destruct (pickLoop _ _ 0) as [k|] eqn:Ek; simpl; [|lia].
    apply pickLoop_bound in Ek. rewrite length_fmap in Ek. lia.
Qed.

(** The draws of [weightedSampleWithoutReplacement] split the pool: no name
    is lost or repeated, and [k] names are drawn when the pool has them. *)
Lemma sampleLoop_spec weightFn rnd k pool picked pos :
  let '(pk, rest, _) := sampleLoop weightFn rnd k pool picked pos in
  pk ++ rest ≡ₚ picked ++ pool ∧
  length pk = length picked + k `min` length pool ∧
  length rest = length pool - k.
Proof.
  revert pool picked pos. induction k as [|k IH]; intros pool picked pos.
  - simpl. destruct pool; simpl; split_and!; try done; lia.
  - destruct pool as [|p pool]; [simpl; split_and!; try done; lia|].
    cbn [sampleLoop].
    pose proof (weightedPickIndex_lt (p :: pool) weightFn rnd pos) as Hlt.
    destruct (weightedPickIndex (p :: pool) weightFn rnd pos) as [idx pos'].
    cbn [fst] in Hlt. specialize (Hlt ltac:(simpl; lia)).
    destruct ((p :: pool) !! idx) as [x|] eqn:Ex.
    2:{ apply lookup_ge_None in Ex. lia. }
    specialize (IH (delete idx (p :: pool)) (picked ++ [x]) pos').
    destruct (sampleLoop weightFn rnd k (delete idx (p :: pool)) (picked ++ [x]) pos')
      as [[pk rest] pos''].
    destruct IH as (Hp & Hl & Hr).
    assert (Hd : length (delete idx (p :: pool)) = length pool).
    { rewrite length_delete by eauto. simpl. lia. }
    split_and!.
    + rewrite Hp, <- app_assoc. simpl.
      apply Permutation_app_head. symmetry. by apply delete_Permutation.
    + rewrite Hl, length_app, Hd. simpl. lia.
    + rewrite Hr, Hd. simpl. lia.
Qed.

Lemma weightedSample_spec pool k weightFn rnd pos :
  let '(pk, rest, _) := weightedSampleWithoutReplacement pool k weightFn rnd pos in
  pk ++ rest ≡ₚ pool ∧ length pk = k `min` length pool ∧ length rest = length pool - k.
Proof.
  unfold weightedSampleWithoutReplacement.
  pose proof (sampleLoop_spec weightFn rnd k pool [] pos) as Hs.
  destruct (sampleLoop weightFn rnd k pool [] pos) as [[pk rest] pos'].
  exact Hs.
Qed.

(** ** Signature tracker *)

Section SignatureFacts.
Context `{HostStrings}.

Lemma isExactRepeat_true (team : list string) (map : gmap string string) :
  isExactRepeatTeamWithMap team map = true ↔
    length team = 4 ∧
    ∀ name, name ∈ team → map !! name = Some (teamSignature team).
Proof.
  unfold isExactRepeatTeamWithMap. case_bool_decide as Hlen.
  - split; [done|]. intros [? _]. done.
  - rewrite forallb_forall. split.
    + intros Hall. split; [done|]. intros name Hin.
      apply list_elem_of_In, Hall in Hin. by apply bool_decide_eq_true in Hin.
    + intros [_ Hall] name Hin. apply bool_decide_eq_true, Hall.
      by apply list_elem_of_In.
Qed.

(** C7. [isExactRepeatTeamWithMap] answers true exactly when the team has
    four members and the map holds, for every member, the signature of
    this very team; so it answers false for a team of another size, and
    for a team with a member whose entry is missing or is another
    signature. *)
Theorem isExactRepeatTeamWithMap_iff (team : list string) (map : gmap string string) :
  (isExactRepeatTeamWithMap team map = true ↔
     length team = 4 ∧
     ∀ name, name ∈ team → map !! name = Some (teamSignature team))
  ∧ (length team ≠ 4 → isExactRepeatTeamWithMap team map = false)
  ∧ (∀ name, name ∈ team → map !! name ≠ Some (teamSignature team) →
       isExactRepeatTeamWithMap team map = false).
Proof.
  split; [apply isExactRepeat_true|]. split.
  - intros Hlen. apply not_true_is_false. rewrite isExactRepeat_true. tauto.
  - intros name Hin Hne. apply not_true_is_false. rewrite isExactRepeat_true.
    intros [_ Hall]. by apply Hne, Hall.
Qed.


End SignatureFacts.

(** ** Formation runs: too few players, and players at rest *)

Section RunFacts.
Context `{HostStrings}.

(** C2. With fewer than four eligible players (the waiting pool without
    the players at rest, plus the carry-over without the players at rest)
    a formation run returns at once, with any random source and any fuel:
    it empties the rest-once list and changes nothing else. *)
Theorem handleMakeTeams_too_few (rnd : RandomSource) (fuel : nat) (st : State) (pos : nat) :
  length (filter (λ p, p ∉ restOnce st) (participants st))
    + length (filter (λ p, p ∉ restOnce st) (priorityCarry st)) < 4 →
  ∃ st', handleMakeTeams rnd fuel st pos = Some (st', pos) ∧
    restOnce st' = [] ∧
    participants st' = participants st ∧
    priorityCarry st' = priorityCarry st ∧
    courts st' = courts st ∧
    teamQueue st' = teamQueue st ∧
    lastTeamSigByPlayer st' = lastTeamSigByPlayer st ∧
    playedCount st' = playedCount st ∧
    disabledCourtsOnce st' = disabledCourtsOnce st.
Proof.
  intros Hfew. exists (clearRestOnce st). split.
  - unfold handleMakeTeams, totalAvailable, eligibleParticipants, eligiblePriorityCarry.
    by rewrite bool_decide_eq_true_2.
  - by repeat split.
Qed.



End RunFacts.

(** ** Court lifecycle *)

Section CourtFacts.
Context `{HostStrings}.

Lemma findCourt_lookup cs courtId idx c :
  findCourt cs courtId = Some (idx, c) → cs !! idx = Some c ∧ court_id c = courtId.
Proof. unfold findCourt. rewrite list_find_Some. tauto. Qed.




Lemma imap_renumber (g : nat → Court → Court) (cs : list Court) k :
  (∀ i c, court_id (g i c) = k + i) →
  court_id <$> imap g cs = seq k (length cs).
Proof.
  revert g k. induction cs as [|c cs IH]; intros g k Hg; [done|].
  simpl. f_equal; [rewrite Hg; lia|].
  apply IH. intros i x. simpl. rewrite Hg. lia.
Qed.

End CourtFacts.

Section ResizeFacts.
Context `{HostStrings}.

(** C5. Setting the court count to [n] (the request clamped to 0..32).
    Below the current count: the courts kept are the first [n], with their
    teams and names, numbered 1..n; the teams of the courts removed, in
    court order, are put in front of the queue; the disabled ids above [n]
    are dropped and the others kept.  Above the current count: courts
    without a team and with default names are appended, numbered on from
    the old count; the disabled list is not touched, so the new courts are
    enabled as long as no id above the old count was disabled.  Nothing
    else changes. *)
Theorem applyCourtCount_spec (requested : Z) (st : State) :
  let n := Z.to_nat (Z.max 0 (Z.min 32 requested)) in
  let st' := applyCourtCount requested st in
  (n < length (courts st) →
     court_id <$> courts st' = seq 1 n ∧
     court_team <$> courts st' = court_team <$> take n (courts st) ∧
     (∀ i c, take n (courts st) !! i = Some c →
        court_name <$> courts st' !! i
        = Some (Some (default (defaultCourtName (i + 1)) (court_name c)))) ∧
     teamQueue st' = omap court_team (drop n (courts st)) ++ teamQueue st ∧
     (∀ id, id ∈ disabledCourtsOnce st' ↔ id ∈ disabledCourtsOnce st ∧ id ≤ n)) ∧
  (length (courts st) < n →
     ∃ added,
       courts st' = courts st ++ added ∧
       length (courts st') = n ∧
       (∀ k c, added !! k = Some c →
          court_id c = length (courts st) + k + 1 ∧
          court_name c = Some (defaultCourtName (court_id c)) ∧
          court_team c = None ∧
          ((∀ id, id ∈ disabledCourtsOnce st → id ≤ length (courts st)) →
           isCourtDisabled (disabledCourtsOnce st') (court_id c) = false)) ∧
       teamQueue st' = teamQueue st ∧
       disabledCourtsOnce st' = disabledCourtsOnce st) ∧
  (n = length (courts st) → st' = st) ∧
  participants st' = participants st ∧
  priorityCarry st' = priorityCarry st ∧
  restOnce st' = restOnce st ∧
  lastTeamSigByPlayer st' = lastTeamSigByPlayer st ∧
  playedCount st' = playedCount st.
Proof.
  intros n st'. subst st'. unfold applyCourtCount. fold n.
  split_and!.
  - intros Hlt. rewrite bool_decide_eq_false_2 by lia.
    rewrite bool_decide_eq_false_2 by lia. simpl.
    assert (Hlen : length (take n (courts st)) = n) by (rewrite length_take; lia).
    split_and!.
    + rewrite (imap_renumber _ _ 1), Hlen; [done|]. intros i c. simpl. lia.
    + generalize (take n (courts st)) as cs. intros cs.
      rewrite fmap_imap. simpl. generalize 0 as k.
      induction cs as [|c cs IH]; intros k; [done|].
      simpl. f_equal. unfold compose in *. simpl. apply (IH (S k)).
    + intros i c Hi. rewrite list_lookup_imap, Hi. done.
    + done.
    + intros id. rewrite list_elem_of_filter. tauto.
  - intros Hgt. rewrite bool_decide_eq_false_2 by lia.
    rewrite bool_decide_eq_true_2 by lia. simpl.
    eexists. split_and!; try reflexivity.
    + rewrite length_app, length_fmap, length_seq. lia.
    + intros k c Hk. apply list_lookup_fmap_Some in Hk as (i & -> & Hi).
      apply lookup_seq in Hi as [-> Hk]. simpl. split_and!; try done; [lia|].
      intros Hdis. unfold isCourtDisabled. apply bool_decide_eq_false_2.
      intros Hin%Hdis. lia.
  - intros ->. by rewrite bool_decide_eq_true_2.
  - repeat case_bool_decide; done.
  - repeat case_bool_decide; done.
  - repeat case_bool_decide; done.
  - repeat case_bool_decide; done.
  - repeat case_bool_decide; done.
Qed.

(** Court numbering is kept by a change of the court count. *)
Lemma applyCourtCount_numbered (requested : Z) (st : State) :
  courtsNumbered st → courtsNumbered (applyCourtCount requested st).
Proof.
  intros [Hids Hdis]. unfold courtsNumbered, applyCourtCount.
  set (n := Z.to_nat (Z.max 0 (Z.min 32 requested))).
  case_bool_decide as Hn; [done|]. case_bool_decide as Hgrow; simpl.
  - rewrite length_app, length_fmap, length_seq, fmap_app, Hids.
    split.
    + rewrite <- list_fmap_compose.
      replace (length (courts st) + (n - length (courts st)))
        with (length (courts st) + (n - length (courts st))) by done.
      rewrite seq_app. f_equal.
      replace (1 + length (courts st)) with (length (courts st) + 1) by lia.
      generalize (seq (length (courts st) + 1) (n - length (courts st))).
      intros l. induction l as [|x l IH]; [done|]. simpl. by f_equal.
    + intros id Hin%Hdis. lia.
  - assert (Hlen : length (take n (courts st)) = n) by (rewrite length_take; lia).
    rewrite length_imap, Hlen. split.
    + rewrite (imap_renumber _ _ 1), Hlen; [done|]. intros i c. simpl. lia.
    + intros id [Hle Hin%Hdis]%list_elem_of_filter. lia.
Qed.


End ResizeFacts.

(** ** Registration of new names *)

Section RegisterFacts.
Context `{HostStrings}.

Lemma uniqueLoop_sublist seen l : uniqueLoop seen l `sublist_of` l.
Proof.
  revert seen. induction l as [|n l IH]; intros seen; simpl; [done|].
  case_bool_decide; [by apply sublist_cons|by apply sublist_skip].
Qed.

Lemma uniqueLoop_keys seen l :
  NoDup (toLowerCase <$> uniqueLoop seen l) ∧
  ∀ x, x ∈ uniqueLoop seen l → toLowerCase x ∉ seen.
Proof.
  revert seen. induction l as [|n l IH]; intros seen; simpl.
  - split; [constructor|]. by intros x ?%elem_of_nil.
  - case_bool_decide as Hseen; [apply IH|].
    destruct (IH (toLowerCase n :: seen)) as [Hnd Hout]. split.
    + simpl. constructor; [|done].
      intros (x & Hx & Hin)%list_elem_of_fmap. apply Hout in Hin.
      apply Hin. rewrite <- Hx. by left.
    + intros x [->|Hin]%elem_of_cons; [done|].
      apply Hout in Hin. intros ?. apply Hin. by right.
Qed.

Lemma uniqueLoop_covers seen l n :
  n ∈ l → toLowerCase n ∉ seen →
  ∃ n', n' ∈ uniqueLoop seen l ∧ toLowerCase n' = toLowerCase n.
Proof.
  revert seen. induction l as [|m l IH]; intros seen; [by intros ?%elem_of_nil|].
  intros Hin Hseen. simpl. case_bool_decide as Hm.
  - apply elem_of_cons in Hin as [->|Hin]; [done|]. by apply IH.
  - destruct (decide (toLowerCase m = toLowerCase n)) as [Heq|Hne].
    + exists m. split; [by left|done].
    + apply elem_of_cons in Hin as [->|Hin]; [done|].
      destruct (IH (toLowerCase m :: seen) Hin) as (n' & Hn' & Hk).
      * intros [?|?]%elem_of_cons; [by apply Hne|done].
      * exists n'. split; [by right|done].
Qed.

Lemma ensureCountsFor_lookup (names : list string) (prev : gmap string nat) n :
  ensureCountsFor names prev !! n =
    if bool_decide (n ∈ names) then Some (default 0 (prev !! n)) else prev !! n.
Proof.
  unfold ensureCountsFor. revert prev.
  induction names as [|m names IH]; intros prev; simpl; [done|].
  rewrite IH. destruct (decide (n = m)) as [->|Hne].
  - rewrite (bool_decide_eq_true_2 (m ∈ m :: names)) by (by left).
    destruct (prev !! m) as [v|] eqn:Em.
    + rewrite Em. by case_bool_decide.
    + rewrite lookup_insert_eq. by case_bool_decide.
  - assert (Hsame : (match prev !! m with
                     | Some _ => prev
                     | None => <[m:=0]> prev
                     end) !! n = prev !! n).
    { destruct (prev !! m); [done|]. by rewrite lookup_insert_ne. }
    rewrite Hsame. case_bool_decide as Hin.
    + rewrite bool_decide_eq_true_2; [done|]. by right.
    + rewrite bool_decide_eq_false_2; [done|].
      intros [?|?]%elem_of_cons; done.
Qed.


End RegisterFacts.

(** ** Team formation: what steps 1 to 4 keep *)

Section FormationFacts.
Context `{HostStrings}.

Lemma swap_across (group tail : list string) gi tj g t :
  group !! gi = Some g → tail !! tj = Some t →
  <[gi := t]> group ++ <[tj := g]> tail ≡ₚ group ++ tail.
Proof.
  intros Hg Ht.
  assert (Hgi : gi < length group) by (by eapply lookup_lt_Some).
  assert (Heq : <[gi := t]> group ++ <[tj := g]> tail
                = <[length group + tj := g]> (<[gi := t]> (group ++ tail))).
  { rewrite insert_app_l by done.
    rewrite insert_app_r_alt by (rewrite length_insert; lia).
    rewrite length_insert. do 2 f_equal. lia. }
  rewrite Heq. apply Permutation_insert_swap.
  - by rewrite lookup_app_l.
  - rewrite lookup_app_r by lia. rewrite <- Ht. f_equal. lia.
Qed.

Lemma tryBreakInner_Some sigs group tail gi tjs r :
  tryBreakInner sigs group tail gi tjs = Some r →
  ∃ tj g t, group !! gi = Some g ∧ tail !! tj = Some t ∧
    r = (<[gi := t]> group, <[tj := g]> tail) ∧
    isExactRepeatTeamWithMap (<[gi := t]> group) sigs = false.
Proof.
  induction tjs as [|tj tjs IH]; simpl; [done|].
  destruct (group !! gi) as [g|] eqn:Eg; [|exact IH].
  destruct (tail !! tj) as [t|] eqn:Et; [|exact IH].
  destruct (isExactRepeatTeamWithMap (<[gi:=t]> group) sigs) eqn:Erep; simpl.
  - exact IH.
  - intros [= <-]. by exists tj, g, t.
Qed.

Lemma tryBreakOuter_Some sigs group tail gis r :
  tryBreakOuter sigs group tail gis = Some r →
  ∃ gi tj g t, group !! gi = Some g ∧ tail !! tj = Some t ∧
    r = (<[gi := t]> group, <[tj := g]> tail) ∧
    isExactRepeatTeamWithMap (<[gi := t]> group) sigs = false.
Proof.
  induction gis as [|gi gis IH]; simpl; [done|].
  destruct (tryBreakInner sigs group tail gi (seq 0 (length tail))) as [r'|] eqn:Ein.
  - intros [= <-]. apply tryBreakInner_Some in Ein. by exists gi.
  - exact IH.
Qed.

(** A swap of [tryBreak] exchanges one name of the group with one name of
    the tail: the sizes stay, no name is lost or repeated, and the new
    group is not a repeat. *)
Lemma tryBreak_Some sigs group tail group' tail' :
  tryBreak sigs group tail = Some (group', tail') →
  group' ++ tail' ≡ₚ group ++ tail ∧
  length group' = length group ∧ length tail' = length tail ∧
  isExactRepeatTeamWithMap group' sigs = false.
Proof.
  intros (gi & tj & g & t & Hg & Ht & [= -> ->] & Hrep)%tryBreakOuter_Some.
  split_and!; [by apply swap_across|by rewrite length_insert..|done].
Qed.

Lemma tryBreakInner_None sigs group tail gi tjs :
  tryBreakInner sigs group tail gi tjs = None →
  ∀ tj g t, tj ∈ tjs → group !! gi = Some g → tail !! tj = Some t →
    isExactRepeatTeamWithMap (<[gi := t]> group) sigs = true.
Proof.
  induction tjs as [|tj' tjs IH]; simpl; [by intros _ ? ? ? ?%elem_of_nil|].
  intros Hnone tj g t Hin Hg Ht.
  apply elem_of_cons in Hin as [->|Hin].
  - rewrite Hg, Ht in Hnone.
    by destruct (isExactRepeatTeamWithMap (<[gi:=t]> group) sigs).
  - destruct (group !! gi) as [g'|]; [|done].
    destruct (tail !! tj') as [t'|]; [|by eapply IH].
    destruct (isExactRepeatTeamWithMap (<[gi:=t']> group) sigs); [|done].
    by eapply IH.
Qed.

(** [tryBreak] gives up only when every swap makes a repeat again. *)
Lemma tryBreak_None sigs group tail gi tj g t :
  tryBreak sigs group tail = None →
  group !! gi = Some g → tail !! tj = Some t →
  isExactRepeatTeamWithMap (<[gi := t]> group) sigs = true.
Proof.
  unfold tryBreak. intros Hnone Hg Ht.
  assert (Hgi : gi ∈ seq 0 (length group)).
  { apply elem_of_seq. apply lookup_lt_Some in Hg. lia. }
  assert (Htj : tj ∈ seq 0 (length tail)).
  { apply elem_of_seq. apply lookup_lt_Some in Ht. lia. }
  revert Hnone Hgi. generalize (seq 0 (length group)) as gis.
  induction gis as [|gi' gis IH]; simpl; [by intros _ ?%elem_of_nil|].
  destruct (tryBreakInner sigs group tail gi' (seq 0 (length tail))) eqn:Ein; [done|].
  intros Hnone [->|Hin]%elem_of_cons.
  - by eapply tryBreakInner_None.
  - by apply IH.
Qed.

Lemma breakIfRepeat_Some sigs team tail team' tail' :
  breakIfRepeat sigs team tail = Some (team', tail') →
  team' ++ tail' ≡ₚ team ++ tail ∧
  length team' = length team ∧ length tail' = length tail.
Proof.
  unfold breakIfRepeat. destruct (isExactRepeatTeamWithMap team sigs); [|done].
  intros Hb%tryBreak_Some. tauto.
Qed.

(** Step 1 keeps the players: the teams made, the priority players left
    (fewer than four) and the pool hold the names of the priority list and
    the pool it started from. *)
Lemma priorityLoop_spec sigs priorityList pool out pl' pool' out' :
  priorityLoop sigs priorityList pool out = (pl', pool', out') →
  ∃ new, out' = out ++ new ∧
    concat new ++ pl' ++ pool' ≡ₚ priorityList ++ pool ∧
    Forall (λ g, length g = 4) new ∧
    length pl' < 4 ∧
    length pool' = length pool.
Proof.
  remember (length priorityList) as n eqn:Hn.
  assert (Hle : length priorityList ≤ n) by lia. clear Hn.
  revert priorityList pool out Hle.
  induction n as [|n IH]; intros pl pool out Hle.
  - destruct pl; [|simpl in Hle; lia]. simpl. intros [= <- <- <-].
    exists []. rewrite app_nil_r. simpl. split_and!; try done. lia.
  - destruct pl as [|a [|b [|c [|d rest]]]];
      try (simpl; intros [= <- <- <-]; exists []; rewrite app_nil_r; simpl;
           split_and!; try done; lia).
    cbn [priorityLoop].
    destruct (breakIfRepeat sigs [a; b; c; d] pool) as [[team1 pool1]|] eqn:Eb.
    + intros Hrun. apply IH in Hrun as (new & -> & Hp & Hall & Hlt & Hpl);
        [|simpl in Hle; lia].
      apply breakIfRepeat_Some in Eb as (Hpb & Hlb & Hlt1).
      exists (team1 :: new). rewrite <- app_assoc. split_and!; try done.
      * simpl. rewrite <- app_assoc, Hp.
        transitivity ((team1 ++ pool1) ++ rest); [solve_Permutation|].
        rewrite Hpb. solve_Permutation.
      * by constructor.
      * congruence.
    + intros Hrun. apply IH in Hrun as (new & -> & Hp & Hall & Hlt & Hpl);
        [|simpl in Hle; lia].
      exists ([a; b; c; d] :: new). rewrite <- app_assoc. split_and!; try done.
      * simpl. do 4 f_equiv. rewrite Hp. done.
      * by constructor.
Qed.

(** Step 2 keeps the players, and a team it makes has four members. *)
Lemma priorityTopUp_spec sigs weightFn rnd priorityList pool out pos pl' pool' out' pos' :
  length priorityList < 4 →
  priorityTopUp sigs weightFn rnd priorityList pool out pos = (pl', pool', out', pos') →
  ∃ new, out' = out ++ new ∧
    concat new ++ pl' ++ pool' ≡ₚ priorityList ++ pool ∧
    Forall (λ g, length g = 4) new ∧
    length pool' ≤ length pool.
Proof.
  intros Hlt. unfold priorityTopUp.
  case_bool_decide as Hpos.
  2:{ intros [= <- <- <- <-]. exists []. by rewrite app_nil_r. }
  case_bool_decide as Hneed.
  2:{ intros [= <- <- <- <-]. exists []. by rewrite app_nil_r. }
  pose proof (weightedSample_spec pool (4 - length priorityList) weightFn rnd pos) as Hs.
  destruct (weightedSampleWithoutReplacement pool (4 - length priorityList) weightFn rnd pos)
    as [[picked rest] pos1].
  destruct Hs as (Hp & Hlp & Hlr).
  assert (Hlen : length (priorityList ++ picked) = 4) by (rewrite length_app; lia).
  destruct (breakIfRepeat sigs (priorityList ++ picked) rest) as [[team1 pool1]|] eqn:Eb.
  - intros [= <- <- <- <-].
    apply breakIfRepeat_Some in Eb as (Hpb & Hlb & Hlt1).
    exists [team1]. split_and!; try done.
    + simpl. rewrite app_nil_r. rewrite Hpb, <- app_assoc. by rewrite Hp.
    + constructor; [lia|constructor].
    + lia.
  - intros [= <- <- <- <-]. exists [priorityList ++ picked]. split_and!; try done.
    + simpl. rewrite app_nil_r. rewrite <- app_assoc. by rewrite Hp.
    + by repeat constructor.
    + lia.
Qed.

(** Step 3 keeps the players whenever it ends: every team it makes has
    four members, fewer than four players are left, and the teams and the
    players left hold the names of the pool it started from. *)
Lemma genericLoop_spec sigs weightFn rnd fuel pool out pos pool' out' pos' :
  genericLoop sigs weightFn rnd fuel pool out pos = Some (pool', out', pos') →
  ∃ new, out' = out ++ new ∧
    concat new ++ pool' ≡ₚ pool ∧
    Forall (λ g, length g = 4) new ∧
    length pool' < 4.
Proof.
  revert pool out pos. induction fuel as [|fuel IH]; intros pool out pos.
  - simpl. case_bool_decide as Hlen; [done|]. intros [= <- <- <-].
    exists []. rewrite app_nil_r. split_and!; try done. lia.
  - cbn [genericLoop]. case_bool_decide as Hlen.
    2:{ intros [= <- <- <-]. exists []. rewrite app_nil_r. split_and!; try done. lia. }
    pose proof (weightedSample_spec pool 4 weightFn rnd pos) as Hs.
    destruct (weightedSampleWithoutReplacement pool 4 weightFn rnd pos)
      as [[picked rest] pos1].
    destruct Hs as (Hp & Hlp & Hlr).
    assert (Hone : ∀ group tail,
      group ++ tail ≡ₚ pool → length group = 4 →
      genericLoop sigs weightFn rnd fuel tail (out ++ [group]) pos1
        = Some (pool', out', pos') →
      ∃ new, out' = out ++ new ∧ concat new ++ pool' ≡ₚ pool ∧
        Forall (λ g, length g = 4) new ∧ length pool' < 4).
    { intros group tail Hgt Hg4 Hrun.
      apply IH in Hrun as (new & -> & Hpn & Hall & Hlt).
      exists (group :: new). rewrite <- app_assoc. split_and!; try done.
      - simpl. rewrite <- app_assoc, Hpn. done.
      - by constructor. }
    destruct (isExactRepeatTeamWithMap picked sigs).
    + destruct (tryBreak sigs picked rest) as [[group tail]|] eqn:Eb.
      * apply tryBreak_Some in Eb as (Hpb & Hlb & _ & _).
        apply Hone; [by rewrite Hpb|lia].
      * case_bool_decide as Hmore.
        -- pose proof (shuffle_perm rnd pool pos1) as Hsh.
           destruct (shuffle rnd pool pos1) as [pool1 pos2]. simpl in Hsh.
           intros Hrun. apply IH in Hrun as (new & -> & Hpn & Hall & Hlt).
           exists new. split_and!; try done. by rewrite Hpn.
        -- apply Hone; [done|lia].
    + apply Hone; [done|lia].
Qed.

(** Steps 1 to 4 keep the players: the teams formed and the players left
    over hold the names of the eligible carry-over and of the generic
    pool, each as often as there; and every team has four members. *)
Lemma formTeams_spec rnd fuel st pos f pos' :
  formTeams rnd fuel st pos = Some (f, pos') →
  concat (priorityTeamsOut f ++ otherTeamsOut f) ++ leftOver f
    ≡ₚ eligiblePriorityCarry st ++ others st ∧
  Forall (λ g, length g = 4) (priorityTeamsOut f ++ otherTeamsOut f).
Proof.
  unfold formTeams.
  destruct (priorityLoop _ (eligiblePriorityCarry st) (others st) [])
    as [[pl1 pool1] out1] eqn:E1.
  apply priorityLoop_spec in E1 as (new1 & -> & Hp1 & Hall1 & Hlt1 & _).
  destruct (priorityTopUp _ _ rnd pl1 pool1 ([] ++ new1) pos)
    as [[[pl2 pool2] out2] pos2] eqn:E2.
  apply priorityTopUp_spec in E2 as (new2 & -> & Hp2 & Hall2 & _); [|done].
  destruct (genericLoop _ _ rnd fuel pool2 [] pos2) as [[[pool3 out3] pos3]|] eqn:E3;
    [|done].
  apply genericLoop_spec in E3 as (new3 & -> & Hp3 & Hall3 & Hlt3).
  intros [= <- <-]. simpl. split.
  - rewrite !concat_app. rewrite <- Hp1, <- Hp2, <- Hp3. solve_Permutation.
  - rewrite !Forall_app. done.
Qed.

Lemma elem_of_concat (gs : list (list string)) p :
  p ∈ concat gs ↔ ∃ g, g ∈ gs ∧ p ∈ g.
Proof.
  induction gs as [|g0 gs IH]; simpl.
  - split; [by intros ?%elem_of_nil|]. by intros (g & ?%elem_of_nil & _).
  - rewrite elem_of_app, IH. split.
    + intros [?|(g & ? & ?)]; [exists g0; split; [by left|done]|].
      exists g. split; [by right|done].
    + intros (g & [->|?]%elem_of_cons & ?); [by left|]. right. by exists g.
Qed.

Lemma NoDup_concat_member (gs : list (list string)) g :
  NoDup (concat gs) → g ∈ gs → NoDup g.
Proof.
  induction gs as [|g0 gs IH]; simpl; [by intros _ ?%elem_of_nil|].
  rewrite NoDup_app. intros (Hg0 & _ & Hrest) [->|Hin]%elem_of_cons; [done|].
  by apply IH.
Qed.

Lemma NoDup_concat_apart (gs : list (list string)) i j g g' p :
  NoDup (concat gs) → i ≠ j → gs !! i = Some g → gs !! j = Some g' →
  p ∈ g → p ∉ g'.
Proof.
  revert i j. induction gs as [|g0 gs IH]; intros i j; simpl; [done|].
  rewrite NoDup_app. intros (Hg0 & Hsep & Hrest) Hij Hi Hj Hp Hp'.
  destruct i as [|i], j as [|j]; simpl in *; simplify_eq.
  - apply (Hsep p Hp). apply elem_of_concat. exists g'.
    split; [|done]. by eapply list_elem_of_lookup_2.
  - apply (Hsep p Hp'). apply elem_of_concat. exists g.
    split; [|done]. by eapply list_elem_of_lookup_2.
  - eapply (IH i j); eauto.
Qed.

(** C10, as the code has it.  A formation run that starts with four
    eligible players or more, when it completes, conserves the players it
    draws from: the members of the new teams together with the new
    carry-over are, name by name and as often, the eligible carry-over
    together with the eligible waiting players that the eligible
    carry-over does not already list.  Every new team has four members,
    all of them eligible.  When the eligible waiting pool and the eligible
    carry-over are each free of repeated names, so are the new teams and
    the new carry-over taken together: a team has four distinct players,
    two teams share no player, and no player of a team is carried over.
    When moreover the two have no name in common, the members of the new
    teams and the new carry-over are exactly the eligible waiting pool
    plus the eligible carry-over. *)
Theorem handleMakeTeams_conserves (rnd : RandomSource) fuel (st : State) pos st' pos' :
  4 ≤ totalAvailable st →
  handleMakeTeams rnd fuel st pos = Some (st', pos') →
  ∃ f, formTeams rnd fuel st pos = Some (f, pos') ∧
    priorityCarry st' = leftOver f ∧
    concat (priorityTeamsOut f ++ otherTeamsOut f) ++ priorityCarry st'
      ≡ₚ eligiblePriorityCarry st
         ++ filter (λ p, p ∉ eligiblePriorityCarry st) (eligibleParticipants st) ∧
    Forall (λ g, length g = 4) (priorityTeamsOut f ++ otherTeamsOut f) ∧
    (∀ g p, g ∈ priorityTeamsOut f ++ otherTeamsOut f → p ∈ g →
       p ∈ eligiblePriorityCarry st ∨ p ∈ eligibleParticipants st) ∧
    (NoDup (eligibleParticipants st) → NoDup (eligiblePriorityCarry st) →
       NoDup (concat (priorityTeamsOut f ++ otherTeamsOut f) ++ priorityCarry st') ∧
       (∀ g, g ∈ priorityTeamsOut f ++ otherTeamsOut f → NoDup g) ∧
       (∀ i j g g' p, i ≠ j →
          (priorityTeamsOut f ++ otherTeamsOut f) !! i = Some g →
          (priorityTeamsOut f ++ otherTeamsOut f) !! j = Some g' →
          p ∈ g → p ∉ g') ∧
       ((∀ p, p ∈ eligibleParticipants st → p ∉ eligiblePriorityCarry st) →
          concat (priorityTeamsOut f ++ otherTeamsOut f) ++ priorityCarry st'
            ≡ₚ eligibleParticipants st ++ eligiblePriorityCarry st)).
Proof.
  intros Hfour. unfold handleMakeTeams.
  rewrite bool_decide_eq_false_2 by lia.
  destruct (formTeams rnd fuel st pos) as [[f p]|] eqn:Ef; [|done].
  intros [= <- <-]. exists f.
  destruct (formTeams_spec _ _ _ _ _ _ Ef) as [Hperm Hall].
  assert (Hcarry : priorityCarry (seatTeams st f) = leftOver f).
  { unfold seatTeams.
    destruct (assignLoop _ (courts st) _ _) as [[courts1 existingQueue] sigs1].
    by destruct (assignLoop _ courts1 _ _) as [[courts2 queueAfterAssign] sigs2]. }
  rewrite Hcarry. split_and!; try done.
  - intros g p0 Hg Hp0.
    assert (Hin : p0 ∈ concat (priorityTeamsOut f ++ otherTeamsOut f) ++ leftOver f).
    { apply elem_of_app. left. apply elem_of_concat. by exists g. }
    rewrite Hperm in Hin. apply elem_of_app in Hin as [?|Hin]; [by left|].
    right. unfold others in Hin. by apply list_elem_of_filter in Hin as [_ ?].
  - intros Hnd1 Hnd2.
    assert (Hnd : NoDup (concat (priorityTeamsOut f ++ otherTeamsOut f) ++ leftOver f)).
    { rewrite Hperm. apply NoDup_app. split_and!; [done| |by apply NoDup_filter].
      intros x Hx. unfold others. rewrite list_elem_of_filter. tauto. }
    pose proof Hnd as Hnd'. apply NoDup_app in Hnd' as (Hconc & _ & _).
    split_and!; try done.
    + intros g Hg. by eapply NoDup_concat_member.
    + intros i j g g' p0 Hij Hi Hj. by eapply NoDup_concat_apart.
    + intros Hdisj. rewrite Hperm. unfold others.
      rewrite (Permutation_app_comm (eligibleParticipants st)). f_equiv.
      assert (Hid : ∀ l : list string, (∀ x, x ∈ l → x ∉ eligiblePriorityCarry st) →
                filter (λ x, x ∉ eligiblePriorityCarry st) l = l).
      { intros l. induction l as [|x l IH]; intros Hl; [done|].
        rewrite filter_cons_True by (apply Hl; by left).
        f_equal. apply IH. intros y Hy. apply Hl. by right. }
      by rewrite Hid.
Qed.

(** ** Seating order *)












(** ** The retry loop of step 3 *)

Lemma teamSignature_replicate n (x : string) :
  teamSignature (replicate n x) = join "|" (replicate n x).
Proof.
  unfold teamSignature. f_equal. symmetry.
  apply replicate_Permutation. symmetry. apply arraySort_perm.
Qed.

Lemma stuck_repeat :
  isExactRepeatTeamWithMap (replicate 4 "A") (lastTeamSigByPlayer stuckState) = true.
Proof.
  unfold isExactRepeatTeamWithMap. rewrite teamSignature_replicate. reflexivity.
Qed.

Lemma stuck_split (picked rest : list string) :
  picked ++ rest ≡ₚ replicate 5 "A" → length picked = 4 →
  picked = replicate 4 "A" ∧ rest = ["A"].
Proof.
  intros Hp Hlen. symmetry in Hp. apply replicate_Permutation in Hp.
  do 5 (destruct picked as [|? picked]; simpl in Hlen; try lia).
  simpl in Hp. by simplify_eq.
Qed.

Lemma stuck_no_break :
  tryBreak (lastTeamSigByPlayer stuckState) (replicate 4 "A") ["A"] = None.
Proof.
  destruct (tryBreak _ _ _) as [[group tail]|] eqn:Eb; [|done].
  apply tryBreak_Some in Eb as (Hp & Hlen & _ & Hrep).
  apply stuck_split in Hp as [-> _]; [|done].
  by rewrite stuck_repeat in Hrep.
Qed.

(** With five entries [A] whose last team was four entries [A], every pass
    of the loop of step 3 draws that team again, finds no swap, reshuffles
    and goes round: the loop outlives any fuel, whatever the random source
    gives. *)
Lemma genericLoop_stuck weightFn (rnd : RandomSource) fuel out pos :
  genericLoop (lastTeamSigByPlayer stuckState) weightFn rnd fuel
    (replicate 5 "A") out pos = None.
Proof.
  revert pos. induction fuel as [|fuel IH]; intros pos; [done|].
  cbn [genericLoop]. rewrite bool_decide_eq_true_2 by (simpl; lia).
  pose proof (weightedSample_spec (replicate 5 "A") 4 weightFn rnd pos) as Hs.
  destruct (weightedSampleWithoutReplacement (replicate 5 "A") 4 weightFn rnd pos)
    as [[picked rest] pos1].
  destruct Hs as (Hp & Hlp & _).
  apply stuck_split in Hp as [-> ->]; [|done].
  rewrite stuck_repeat, stuck_no_break.
  rewrite bool_decide_eq_true_2 by (simpl; lia).
  pose proof (shuffle_perm rnd (replicate 5 "A") pos1) as Hsh.
  destruct (shuffle rnd (replicate 5 "A") pos1) as [pool' pos2]. cbn [fst] in Hsh.
  symmetry in Hsh. apply replicate_Permutation in Hsh as <-. apply IH.
Qed.

(** C8, at a state that defeats it.  [stuckState] is reached from the
    initial state by the buttons of the component.  A formation run from
    it does not complete: with any host, any random source and any fuel,
    the loop of step 3 is still running when the fuel is spent. *)
Theorem handleMakeTeams_stuck (rnd : RandomSource) (fuel pos : nat) :
  handleMakeTeams rnd fuel stuckState pos = None.
Proof.
  unfold handleMakeTeams. rewrite bool_decide_eq_false_2 by (vm_compute; lia).
  unfold formTeams.
  change (eligiblePriorityCarry stuckState) with (@nil string).
  change (others stuckState) with (replicate 5 "A").
  cbn [priorityLoop]. unfold priorityTopUp. cbn [length].
  rewrite bool_decide_eq_false_2 by lia.
  by rewrite genericLoop_stuck.
Qed.

Lemma string_length_app (s1 s2 : string) :
  String.length (s1 +:+ s2) = String.length s1 + String.length s2.
Proof.
  induction s1 as [|a s1 IH]; [done|].
  change (String a s1 +:+ s2) with (String a (s1 +:+ s2)). simpl. by rewrite IH.
Qed.

Lemma string_app_inj (s1 s2 t1 t2 : string) :
  String.length s1 = String.length s2 →
  s1 +:+ t1 = s2 +:+ t2 → s1 = s2 ∧ t1 = t2.
Proof.
  revert s2. induction s1 as [|a s1 IH]; intros [|b s2]; simpl; try done.
  intros [= Hlen].
  change (String a s1 +:+ t1) with (String a (s1 +:+ t1)).
  change (String b s2 +:+ t2) with (String b (s2 +:+ t2)).
  intros [= -> Happ]. destruct (IH s2 Hlen Happ) as [-> ->]. done.
Qed.

Lemma join_length sep (l : list string) :
  String.length (join sep l)
  = sum_list_with String.length l + String.length sep * (length l - 1).
Proof.
  induction l as [|x l IH]; simpl; [lia|].
  destruct l as [|y l]; [simpl; lia|].
  rewrite !string_length_app, IH. simpl. lia.
Qed.

(** Arrays of as many strings, all of one length, with the same [join] are
    the same array. *)
Lemma join_inj_uniform len sep (l1 l2 : list string) :
  Forall (λ s, String.length s = len) l1 →
  Forall (λ s, String.length s = len) l2 →
  length l1 = length l2 →
  join sep l1 = join sep l2 → l1 = l2.
Proof.
  intros H1. revert l2. induction H1 as [|x l1 Hx H1 IH]; intros l2 H2 Hlen Hj.
  - by destruct l2.
  - destruct H2 as [|y l2 Hy H2]; [done|]. simpl in Hlen.
    destruct l1 as [|x' l1], l2 as [|y' l2]; try done.
    + simpl in Hj. by subst.
    + change (join sep (x :: x' :: l1)) with (x +:+ sep +:+ join sep (x' :: l1)) in Hj.
      change (join sep (y :: y' :: l2)) with (y +:+ sep +:+ join sep (y' :: l2)) in Hj.
      apply string_app_inj in Hj as [-> Hj]; [|congruence].
      apply string_app_inj in Hj as [_ Hj]; [|done].
      f_equal. apply IH; [done|lia|done].
Qed.

Lemma insert_middle (l : list string) i g t :
  l !! i = Some g →
  l = take i l ++ g :: drop (S i) l ∧
  <[i := t]> l = take i l ++ t :: drop (S i) l.
Proof.
  intros Hi. split.
  - by rewrite take_drop_middle.
  - apply insert_take_drop. by eapply lookup_lt_Some.
Qed.

(** Putting a name from outside into a team changes its signature at one
    position at least. *)
Lemma teamSignature_swap (team : list string) t :
  team ≠ [] → t ∉ team →
  ∃ gi g, team !! gi = Some g ∧
    teamSignature (<[gi := t]> team) ≠ teamSignature team.
Proof.
  intros Hne Hout.
  destruct (decide (Forall (λ s, String.length s = String.length t) team))
    as [Hall|Hnot].
  - destruct team as [|g team]; [done|]. exists 0, g. split; [done|].
    simpl. intros Hsig. apply Hout.
    assert (Heq : arraySort localeCompare (t :: team)
                  = arraySort localeCompare (g :: team)).
    { apply (join_inj_uniform (String.length t) "|").
      - rewrite arraySort_perm. constructor; [done|]. by apply Forall_inv_tail in Hall.
      - by rewrite arraySort_perm.
      - by rewrite !arraySort_length.
      - exact Hsig. }
    assert (Hp : t :: team ≡ₚ g :: team).
    { by rewrite <- (arraySort_perm localeCompare (t :: team)), Heq, arraySort_perm. }
    rewrite <- Hp. by left.
  - apply not_Forall_Exists in Hnot; [|apply _].
    apply Exists_exists in Hnot as (g & Hin & Hlen).
    apply list_elem_of_lookup in Hin as [gi Hgi].
    exists gi, g. split; [done|]. intros Hsig.
    apply (f_equal String.length) in Hsig. unfold teamSignature in Hsig.
    rewrite !join_length, !arraySort_length, length_insert in Hsig.
    rewrite !arraySort_perm in Hsig.
    destruct (insert_middle team gi g t Hgi) as [Ht Hi].
    assert (Hs1 : sum_list_with String.length team
      = sum_list_with String.length (take gi team)
        + (String.length g + sum_list_with String.length (drop (S gi) team))).
    { rewrite Ht at 1. by rewrite sum_list_with_app. }
    assert (Hs2 : sum_list_with String.length (<[gi := t]> team)
      = sum_list_with String.length (take gi team)
        + (String.length t + sum_list_with String.length (drop (S gi) team))).
    { rewrite Hi. by rewrite sum_list_with_app. }
    cbn [String.length] in Hsig. unfold compose in Hlen. lia.
Qed.

(** A repeat drawn from a pool of distinct names is broken by a swap as
    soon as a player is left to swap with. *)
Lemma tryBreak_distinct sigs (picked rest : list string) :
  isExactRepeatTeamWithMap picked sigs = true →
  rest ≠ [] → (∀ t, t ∈ rest → t ∉ picked) →
  tryBreak sigs picked rest ≠ None.
Proof.
  intros Hrep Hrest Hout Hnone.
  destruct rest as [|t rest]; [done|].
  apply isExactRepeat_true in Hrep as [Hlen Hall].
  destruct (teamSignature_swap picked t) as (gi & g & Hgi & Hsig).
  { by destruct picked. }
  { apply Hout. by left. }
  pose proof (tryBreak_None sigs picked (t :: rest) gi 0 g t Hnone Hgi eq_refl) as Hrep'.
  apply isExactRepeat_true in Hrep' as [_ Hall'].
  set (k := if decide (gi = 0) then 1 else 0).
  assert (Hk : k ≠ gi) by (unfold k; case_decide; lia).
  destruct (lookup_lt_is_Some_2 picked k) as [g' Hg'].
  { unfold k. case_decide; lia. }
  assert (Hin : g' ∈ picked) by (by eapply list_elem_of_lookup_2).
  assert (Hin' : g' ∈ <[gi := t]> picked).
  { apply list_elem_of_lookup. exists k. by rewrite list_lookup_insert_ne. }
  apply Hall in Hin. apply Hall' in Hin'. congruence.
Qed.

(** The loop of step 3 ends on a pool of distinct names: a pass never
    reshuffles, it takes four players off the pool. *)
Lemma genericLoop_terminates sigs weightFn (rnd : RandomSource) fuel pool out pos :
  NoDup pool → length pool ≤ fuel →
  is_Some (genericLoop sigs weightFn rnd fuel pool out pos).
Proof.
  revert pool out pos. induction fuel as [|fuel IH]; intros pool out pos Hnd Hlen.
  - simpl. rewrite bool_decide_eq_false_2 by lia. done.
  - cbn [genericLoop]. case_bool_decide as H4; [|done].
    pose proof (weightedSample_spec pool 4 weightFn rnd pos) as Hs.
    destruct (weightedSampleWithoutReplacement pool 4 weightFn rnd pos)
      as [[picked rest] pos1].
    destruct Hs as (Hp & Hlp & Hlr).
    assert (Hnd' : NoDup (picked ++ rest)) by (by rewrite Hp).
    assert (Hrest : NoDup rest) by (apply NoDup_app in Hnd'; tauto).
    destruct (isExactRepeatTeamWithMap picked sigs) eqn:Erep.
    + destruct (tryBreak sigs picked rest) as [[group tail]|] eqn:Eb.
      * apply tryBreak_Some in Eb as (Hpb & Hlg & Hlt & _).
        apply IH; [|lia].
        rewrite <- Hpb in Hnd'. apply NoDup_app in Hnd'. tauto.
      * case_bool_decide as Hmore; [|apply IH; [done|lia]].
        exfalso. apply (tryBreak_distinct sigs picked rest); try done.
        -- intros ->. simpl in Hlr. lia.
        -- intros t Ht Hpk. apply NoDup_app in Hnd' as (_ & Hsep & _).
           by apply (Hsep t).
    + apply IH; [done|lia].
Qed.

Lemma NoDup_part (l k1 k2 k3 : list string) :
  NoDup l → k1 ++ k2 ++ k3 ≡ₚ l → NoDup k3.
Proof.
  intros Hnd Hp. rewrite <- Hp in Hnd.
  apply NoDup_app in Hnd as (_ & _ & Hnd). apply NoDup_app in Hnd. tauto.
Qed.

(** A formation run from a state whose waiting pool and whose carry-over
    each list distinct names completes, with any random source, as soon as
    the fuel covers the waiting pool. *)
Lemma handleMakeTeams_terminates (rnd : RandomSource) fuel (st : State) pos :
  NoDup (participants st) → NoDup (priorityCarry st) →
  length (participants st) ≤ fuel →
  is_Some (handleMakeTeams rnd fuel st pos).
Proof.
  intros Hnd1 Hnd2 Hfuel. unfold handleMakeTeams.
  case_bool_decide as Hfew; [done|].
  assert (Hnd : NoDup (eligiblePriorityCarry st ++ others st)).
  { apply NoDup_app. split_and!.
    - by apply NoDup_filter.
    - intros x Hx. unfold others. rewrite list_elem_of_filter. tauto.
    - unfold others, eligibleParticipants. by do 2 apply NoDup_filter. }
  assert (Hlen : length (others st) ≤ fuel).
  { unfold others, eligibleParticipants.
    pose proof (length_filter (λ p, p ∉ restOnce st) (participants st)).
    pose proof (length_filter (λ p, p ∉ eligiblePriorityCarry st)
                  (filter (λ p, p ∉ restOnce st) (participants st))).
    lia. }
  unfold formTeams.
  destruct (priorityLoop _ (eligiblePriorityCarry st) (others st) [])
    as [[pl1 pool1] out1] eqn:E1.
  apply priorityLoop_spec in E1 as (new1 & -> & Hp1 & Hall1 & Hlt1 & Hl1).
  destruct (priorityTopUp _ _ rnd pl1 pool1 ([] ++ new1) pos)
    as [[[pl2 pool2] out2] pos2] eqn:E2.
  apply priorityTopUp_spec in E2 as (new2 & -> & Hp2 & Hall2 & Hl2); [|done].
  assert (Hnd3 : NoDup pool2).
  { apply (NoDup_part (pl1 ++ pool1) (concat new2) pl2); [|done].
    rewrite <- Hp1 in Hnd. apply NoDup_app in Hnd. tauto. }
  destruct (genericLoop_terminates (lastTeamSigByPlayer st)
              (weightOf (playedCount st)) rnd fuel pool2 [] pos2 Hnd3)
    as [[[pool3 out3] pos3] ->]; [lia|done].
Qed.

End FormationFacts.

(** ** Court numbering is an invariant *)

Section NumberingFacts.
Context `{HostStrings}.

Lemma courtsNumbered_initial : courtsNumbered emptyState.
Proof. split; [done|]. by intros id ?%elem_of_nil. Qed.

Lemma insert_setTeam_ids (cs : list Court) idx c t :
  cs !! idx = Some c → court_id <$> <[idx := setTeam c t]> cs = court_id <$> cs.
Proof.
  intros Hc. rewrite list_fmap_insert. apply list_insert_id.
  by rewrite list_lookup_fmap, Hc.
Qed.

Lemma assignLoop_ids disabled cs teams sigs :
  court_id <$> (assignLoop disabled cs teams sigs).1.1 = court_id <$> cs.
Proof.
  revert teams sigs. induction cs as [|c cs IH]; intros teams sigs; [done|].
  simpl. destruct (court_team c); [|destruct teams as [|t ts]];
    [| |destruct (negb _)];
    match goal with
    | |- context [assignLoop disabled cs ?ts ?s] =>
        specialize (IH ts s); destruct (assignLoop disabled cs ts s) as [[cs1 un] s1]
    end; cbn [fst] in *; rewrite !fmap_cons; by f_equal.
Qed.

Lemma toggleDisableCourtOnce_numbered courtId (st : State) :
  courtsNumbered st → is_Some (findCourt (courts st) courtId) →
  courtsNumbered (toggleDisableCourtOnce courtId st).
Proof.
  intros [Hids Hdis] [[idx c] Hfind].
  destruct (findCourt_lookup _ _ _ _ Hfind) as [Hidx Hid].
  assert (Hrange : 1 ≤ courtId ≤ length (courts st)).
  { assert (Hin : courtId ∈ court_id <$> courts st).
    { apply list_elem_of_fmap. exists c. split; [done|].
      by eapply list_elem_of_lookup_2. }
    rewrite Hids in Hin. apply elem_of_seq in Hin. lia. }
  unfold courtsNumbered, toggleDisableCourtOnce. rewrite Hfind.
  destruct (negb (isCourtDisabled (disabledCourtsOnce st) courtId)).
  - destruct (court_team c) as [[|m ms]|]; simpl;
      rewrite ?length_insert, ?insert_setTeam_ids by done;
      (split; [done|]);
      intros id [?|Hid'%list_elem_of_singleton]%elem_of_app; subst; auto.
  - destruct (court_team c), (teamQueue st); simpl;
      rewrite ?length_insert, ?insert_setTeam_ids by done;
      (split; [done|]); intros id [_ ?]%list_elem_of_filter; auto.
Qed.

Lemma handleFinishCourt_numbered courtId (st : State) :
  courtsNumbered st → courtsNumbered (handleFinishCourt courtId st).
Proof.
  intros [Hids Hdis]. unfold courtsNumbered, handleFinishCourt.
  destruct (findCourt (courts st) courtId) as [[idx c]|] eqn:Hfind; [|done].
  destruct (findCourt_lookup _ _ _ _ Hfind) as [Hidx Hid].
  destruct (teamQueue st); [|destruct (negb _)]; simpl;
    by rewrite ?length_insert, ?insert_setTeam_ids.
Qed.

Lemma handleMakeTeams_numbered (rnd : RandomSource) fuel (st : State) pos st' pos' :
  courtsNumbered st → handleMakeTeams rnd fuel st pos = Some (st', pos') →
  courtsNumbered st'.
Proof.
  intros [Hids Hdis]. unfold handleMakeTeams. case_bool_decide.
  { by intros [= <- <-]. }
  destruct (formTeams rnd fuel st pos) as [[f p]|]; [|done].
  intros [= <- <-]. unfold courtsNumbered, seatTeams.
  pose proof (assignLoop_ids (disabledCourtsOnce st) (courts st) (teamQueue st)
                (lastTeamSigByPlayer st)) as H1.
  destruct (assignLoop _ (courts st) _ _) as [[courts1 existingQueue] sigs1].
  pose proof (assignLoop_ids (disabledCourtsOnce st) courts1
                (priorityTeamsOut f
                 ++ arraySort (compareAvg (playedCount st)) (otherTeamsOut f)) sigs1) as H2.
  destruct (assignLoop _ courts1 _ _) as [[courts2 queueAfterAssign] sigs2].
  simpl in *. assert (Hc : court_id <$> courts2 = court_id <$> courts st) by congruence.
  assert (Hl : length courts2 = length (courts st)).
  { by rewrite <- (length_fmap court_id courts2), Hc, length_fmap. }
  rewrite Hc, Hl. done.
Qed.

End NumberingFacts.

(** * Further properties of the code *)

(** ** Helpers *)

Section HelperProperties.
Context `{HostStrings}.

Lemma uniqueLoop_snoc seen l n :
  uniqueLoop seen (l ++ [n])
  = uniqueLoop seen l
    ++ (if bool_decide (toLowerCase n ∈ seen ++ (toLowerCase <$> l)) then [] else [n]).
Proof.
  revert seen. induction l as [|m l IH]; intros seen; simpl.
  - rewrite app_nil_r. by case_bool_decide.
  - case_bool_decide as Hm.
    + rewrite IH. f_equal. erewrite bool_decide_ext; [done|]. csimpl.
      rewrite !elem_of_app, elem_of_cons.
      split; [intros [?|?]; [by left|by right; right]|].
      intros [?|[Heq|?]]; [by left|left; by rewrite Heq|by right].
    + simpl. rewrite IH. do 2 f_equal. erewrite bool_decide_ext; [done|]. csimpl.
      rewrite !elem_of_app, !elem_of_cons.
      change (list_fmap string string toLowerCase l) with (toLowerCase <$> l).
      rewrite elem_of_app. tauto.
Qed.

Lemma uniqueLoop_fixed seen l :
  NoDup (toLowerCase <$> l) → (∀ x, x ∈ l → toLowerCase x ∉ seen) →
  uniqueLoop seen l = l.
Proof.
  revert seen. induction l as [|n l IH]; intros seen Hnd Hout; [done|].
  simpl in *. apply NoDup_cons in Hnd as [Hn Hnd].
  rewrite bool_decide_eq_false_2 by (apply Hout; by left).
  f_equal. apply IH; [done|]. intros x Hx [Hk|Hs]%elem_of_cons.
  - apply Hn. rewrite <- Hk. apply list_elem_of_fmap. by exists x.
  - apply (Hout x); [by right|done].
Qed.

(** X1. [uniquePreserveOrder] keeps, in input order, the first of the names
    that are equal up to letter case: a name at the end of the input is
    kept exactly when no earlier name has its lower-cased key.  The result
    is a part of the input in input order, no two names of it are equal up
    to letter case, every input name has its key in it, and it is a fixed
    point of the function. *)
Theorem uniquePreserveOrder_first (l : list string) (n : string) :
  uniquePreserveOrder (l ++ [n])
    = uniquePreserveOrder l
      ++ (if bool_decide (toLowerCase n ∈ toLowerCase <$> l) then [] else [n]) ∧
  uniquePreserveOrder l `sublist_of` l ∧
  NoDup (toLowerCase <$> uniquePreserveOrder l) ∧
  (∀ x, x ∈ l → toLowerCase x ∈ toLowerCase <$> uniquePreserveOrder l) ∧
  uniquePreserveOrder (uniquePreserveOrder l) = uniquePreserveOrder l.
Proof.
  unfold uniquePreserveOrder. split_and!.
  - apply uniqueLoop_snoc.
  - apply uniqueLoop_sublist.
  - apply uniqueLoop_keys.
  - intros x Hx. destruct (uniqueLoop_covers [] l x Hx) as (x' & Hin & Hk).
    { apply not_elem_of_nil. }
    rewrite <- Hk. apply list_elem_of_fmap. by exists x'.
  - apply uniqueLoop_fixed; [apply uniqueLoop_keys|].
    intros x _. apply not_elem_of_nil.
Qed.

Lemma shuffleLoop_pos rnd i (a : list string) pos :
  (shuffleLoop rnd i a pos).2 = pos + i.
Proof.
  revert a pos. induction i as [|i IH]; intros a pos; simpl; [lia|].
  rewrite IH. lia.
Qed.

(** X2. [shuffle] returns the entries of its array in some order, as many
    as it was given, and draws one number per entry but the first. *)
Theorem shuffle_spec (rnd : RandomSource) (arr : list string) (pos : nat) :
  (shuffle rnd arr pos).1 ≡ₚ arr ∧
  length (shuffle rnd arr pos).1 = length arr ∧
  (shuffle rnd arr pos).2 = pos + (length arr - 1).
Proof.
  split_and!.
  - apply shuffle_perm.
  - by rewrite shuffle_perm.
  - apply shuffleLoop_pos.
Qed.



Lemma sampleLoop_pos weightFn rnd k pool picked pos :
  (sampleLoop weightFn rnd k pool picked pos).2 = pos + k `min` length pool.
Proof.
  revert pool picked pos. induction k as [|k IH]; intros pool picked pos.
  - simpl. destruct pool; simpl; lia.
  - destruct pool as [|p pool]; [simpl; lia|]. cbn [sampleLoop].
    pose proof (weightedPickIndex_lt (p :: pool) weightFn rnd pos) as Hlt.
    assert (Hpos : (weightedPickIndex (p :: pool) weightFn rnd pos).2 = S pos).
    { unfold weightedPickIndex. by destruct (Qle_bool _ 0). }
    destruct (weightedPickIndex (p :: pool) weightFn rnd pos) as [idx pos'].
    cbn [fst snd] in Hlt, Hpos. subst pos'. specialize (Hlt ltac:(simpl; lia)).
    destruct ((p :: pool) !! idx) as [x|] eqn:Ex.
    2:{ apply lookup_ge_None in Ex. lia. }
    rewrite IH, length_delete by eauto. simpl. lia.
Qed.

(** X4. [weightedSampleWithoutReplacement] splits the array into the
    entries drawn and the entries left: together they are the entries of
    the array, each as often as there; [k] entries are drawn, or all of
    them when the array has fewer; and one number is drawn per entry. *)
Theorem weightedSample_split (items : list string) (k : nat) (weightFn : string → Q)
    (rnd : RandomSource) (pos : nat) :
  let '(picked, rest, pos') := weightedSampleWithoutReplacement items k weightFn rnd pos in
  picked ++ rest ≡ₚ items ∧
  length picked = k `min` length items ∧
  length rest = length items - k ∧
  pos' = pos + k `min` length items.
Proof.
  pose proof (weightedSample_spec items k weightFn rnd pos) as Hs.
  pose proof (sampleLoop_pos weightFn rnd k items [] pos) as Hp.
  unfold weightedSampleWithoutReplacement in *.
  destruct (sampleLoop weightFn rnd k items [] pos) as [[picked rest] pos'].
  simpl in Hp. tauto.
Qed.





(** A sort by a comparison that is a total order on the entries. *)
Section SortOn.
Context {A : Type} (cmp : A → A → comparison) (D : A → Prop).
Hypothesis cmp_flip : ∀ a b, D a → D b → cmp a b = Gt → cmp b a ≠ Gt.
Hypothesis cmp_trans :
  ∀ a b c, D a → D b → D c → cmp a b ≠ Gt → cmp b c ≠ Gt → cmp a c ≠ Gt.
Hypothesis cmp_anti : ∀ a b, D a → D b → cmp a b ≠ Gt → cmp b a ≠ Gt → a = b.





End SortOn.



Lemma tryBreakInner_first sigs group tail gi tjs r :
  tryBreakInner sigs group tail gi tjs = Some r →
  ∃ pre tj post g t, tjs = pre ++ tj :: post ∧
    group !! gi = Some g ∧ tail !! tj = Some t ∧
    r = (<[gi := t]> group, <[tj := g]> tail) ∧
    isExactRepeatTeamWithMap (<[gi := t]> group) sigs = false ∧
    ∀ tj' t', tj' ∈ pre → tail !! tj' = Some t' →
      isExactRepeatTeamWithMap (<[gi := t']> group) sigs = true.
Proof.
  induction tjs as [|tj tjs IH]; simpl; [done|].
  destruct (group !! gi) as [g|] eqn:Eg.
  2:{ intros Hr. apply IH in Hr as (pre & tj0 & post & g & t & _ & ? & _). done. }
  destruct (tail !! tj) as [t|] eqn:Et.
  - destruct (isExactRepeatTeamWithMap (<[gi:=t]> group) sigs) eqn:Er; simpl.
    + intros Hr. apply IH in Hr as (pre & tj0 & post & g0 & t0 & -> & ? & ? & ? & ? & Hpre).
      exists (tj :: pre), tj0, post, g0, t0. split_and!; try done.
      intros tj' t' [->|Hin]%elem_of_cons Ht'; [|by eapply Hpre].
      rewrite Et in Ht'. by injection Ht' as <-.
    + intros [= <-]. exists [], tj, tjs, g, t. split_and!; try done.
      by intros tj' t' ?%elem_of_nil.
  - intros Hr. apply IH in Hr as (pre & tj0 & post & g0 & t0 & -> & ? & ? & ? & ? & Hpre).
    exists (tj :: pre), tj0, post, g0, t0. split_and!; try done.
    intros tj' t' [->|Hin]%elem_of_cons Ht'; [|by eapply Hpre].
    by rewrite Et in Ht'.
Qed.

Lemma tryBreakOuter_first sigs group tail gis r :
  tryBreakOuter sigs group tail gis = Some r →
  ∃ pre gi post, gis = pre ++ gi :: post ∧
    tryBreakInner sigs group tail gi (seq 0 (length tail)) = Some r ∧
    ∀ gi', gi' ∈ pre →
      tryBreakInner sigs group tail gi' (seq 0 (length tail)) = None.
Proof.
  induction gis as [|gi gis IH]; simpl; [done|].
  destruct (tryBreakInner sigs group tail gi (seq 0 (length tail))) as [r0|] eqn:E.
  - intros [= <-]. exists [], gi, gis. split_and!; try done.
    by intros gi' ?%elem_of_nil.
  - intros Hr. apply IH in Hr as (pre & gi0 & post & -> & ? & Hpre).
    exists (gi :: pre), gi0, post. split_and!; try done.
    intros gi' [->|Hin]%elem_of_cons; [done|by apply Hpre].
Qed.

Lemma seq_split_before n pre x post :
  seq 0 n = pre ++ x :: post → ∀ y, y < x → y ∈ pre.
Proof.
  intros Hs y Hy.
  assert (Hx : seq 0 n !! length pre = Some x).
  { rewrite Hs. by rewrite list_lookup_middle. }
  apply lookup_seq in Hx as [-> _]. simpl in Hy.
  destruct (lookup_lt_is_Some_2 pre y Hy) as [z Hz].
  assert (Hz' : seq 0 n !! y = Some z).
  { rewrite Hs. by rewrite lookup_app_l. }
  apply lookup_seq in Hz' as [-> _]. simpl.
  by eapply list_elem_of_lookup_2.
Qed.

(** X8. [tryBreak] makes the first swap that helps and no other change:
    with no player after the group it gives up; when it succeeds it has
    put one player of the tail in the place of one member and that member
    in the place of the player, the new group is no exact repeat, and every
    swap earlier in the scan (members in order, for each member the tail in
    order) would have been an exact repeat; when it gives up, every swap
    is an exact repeat. *)
Theorem tryBreak_first (sigs : gmap string string) (group tail : list string) :
  tryBreak sigs group [] = None ∧
  (∀ group' tail', tryBreak sigs group tail = Some (group', tail') →
     ∃ gi tj g t, group !! gi = Some g ∧ tail !! tj = Some t ∧
       group' = <[gi := t]> group ∧ tail' = <[tj := g]> tail ∧
       group' ++ tail' ≡ₚ group ++ tail ∧
       isExactRepeatTeamWithMap group' sigs = false ∧
       ∀ gi' tj' g' t', gi' < gi ∨ (gi' = gi ∧ tj' < tj) →
         group !! gi' = Some g' → tail !! tj' = Some t' →
         isExactRepeatTeamWithMap (<[gi' := t']> group) sigs = true) ∧
  (tryBreak sigs group tail = None →
     ∀ gi tj g t, group !! gi = Some g → tail !! tj = Some t →
       isExactRepeatTeamWithMap (<[gi := t]> group) sigs = true).
Proof.
  split_and!.
  - unfold tryBreak. induction (seq 0 (length group)) as [|gi gis IH]; [done|].
    simpl. exact IH.
  - intros group' tail' Hr. unfold tryBreak in Hr.
    apply tryBreakOuter_first in Hr as (pre & gi & post & Hgis & Hin & Hpre).
    apply tryBreakInner_first in Hin
      as (pre' & tj & post' & g & t & Htjs & Hg & Ht & [= -> ->] & Hno & Hpre').
    exists gi, tj, g, t. split_and!; try done.
    { by apply swap_across. }
    intros gi' tj' g' t' [Hlt|[-> Hlt]] Hg' Ht'.
    + assert (Hin : gi' ∈ pre) by (by eapply seq_split_before).
      apply Hpre in Hin.
      eapply (tryBreakInner_None _ _ _ _ _ Hin tj' g' t'); [|done|done].
      apply elem_of_seq. apply lookup_lt_Some in Ht'. lia.
    + eapply Hpre'; [|done]. by eapply seq_split_before.
  - intros Hn gi tj g t Hg Ht. by eapply tryBreak_None.
Qed.

(** X9. With names that are all different, an exact repeat is always
    broken when a player is left after the group: [tryBreak] does not give
    up. *)
Theorem tryBreak_breaks (sigs : gmap string string) (picked rest : list string) :
  isExactRepeatTeamWithMap picked sigs = true →
  rest ≠ [] → NoDup (picked ++ rest) →
  ∃ group tail, tryBreak sigs picked rest = Some (group, tail) ∧
    isExactRepeatTeamWithMap group sigs = false ∧
    group ++ tail ≡ₚ picked ++ rest.
Proof.
  intros Hrep Hne Hnd.
  destruct (tryBreak sigs picked rest) as [[group tail]|] eqn:E.
  - exists group, tail. apply tryBreak_Some in E as (? & _ & _ & ?). done.
  - exfalso. apply (tryBreak_distinct sigs picked rest); try done.
    apply NoDup_app in Hnd as (_ & Hap & _). intros t Ht Hin. by apply (Hap t).
Qed.

End HelperProperties.

(** ** Handlers *)

Section EngineProperties.
Context `{HostStrings}.


Lemma filter_none {A} (P : A → Prop) `{∀ x, Decision (P x)} (l : list A) :
  (∀ x, x ∈ l → ¬ P x) → filter P l = [].
Proof.
  induction l as [|x l IH]; intros Hl; [done|].
  rewrite filter_cons_False by (apply Hl; by left).
  apply IH. intros y Hy. apply Hl. by right.
Qed.

Lemma filter_all {A} (P : A → Prop) `{∀ x, Decision (P x)} (l : list A) :
  (∀ x, x ∈ l → P x) → filter P l = l.
Proof.
  induction l as [|x l IH]; intros Hl; [done|].
  rewrite filter_cons_True by (apply Hl; by left).
  f_equal. apply IH. intros y Hy. apply Hl. by right.
Qed.

(** X11. A second call of [addNamesNewOnly] with the same names adds
    nobody: the names it added are known by then. *)
Theorem addNamesNewOnly_idempotent (names : list string) (st : State) :
  addNamesNewOnly names (addNamesNewOnly names st) = addNamesNewOnly names st.
Proof.
  set (st1 := addNamesNewOnly names st).
  assert (Hknown : ∀ n, n ∈ uniquePreserveOrder names → n ∈ getAllNamesSet st1).
  { intros n Hn. unfold st1, addNamesNewOnly. case_bool_decide as Hlen.
    - destruct (decide (n ∈ getAllNamesSet st)) as [|Hnew]; [done|].
      exfalso. apply length_zero_iff_nil in Hlen.
      assert (Hin : n ∈ filter (λ n, n ∉ getAllNamesSet st) (uniquePreserveOrder names)).
      { by apply list_elem_of_filter. }
      rewrite Hlen in Hin. by apply elem_of_nil in Hin.
    - unfold getAllNamesSet at 1. cbn [participants teamQueue courts priorityCarry].
      rewrite !elem_of_union, !elem_of_list_to_set, elem_of_app.
      destruct (decide (n ∈ getAllNamesSet st)) as [Hold|Hnew].
      + unfold getAllNamesSet in Hold.
        rewrite !elem_of_union, !elem_of_list_to_set in Hold. tauto.
      + do 3 left. right. by apply list_elem_of_filter. }
  unfold addNamesNewOnly at 1. fold st1.
  rewrite (filter_none (λ n, n ∉ getAllNamesSet st1)).
  - done.
  - intros n Hn Hnot. by apply Hnot, Hknown.
Qed.


Lemma omap_imap_teams (g : nat → Court → Court) (cs : list Court) :
  (∀ i c, court_team (g i c) = court_team c) →
  omap court_team (imap g cs) = omap court_team cs.
Proof.
  revert g. induction cs as [|c cs IH]; intros g Hg; [done|].
  rewrite imap_cons. simpl. rewrite Hg, IH; [done|]. intros i c'. apply Hg.
Qed.

(** X13. [applyCourtCount] leaves as many courts as were asked for, between
    0 and 32; no team is lost or copied, whether it stays on its court or
    moves to the queue; and a second call with the same number changes
    nothing. *)
Theorem applyCourtCount_conserves (requested : Z) (st : State) :
  let st' := applyCourtCount requested st in
  length (courts st') = Z.to_nat (Z.max 0 (Z.min 32 requested)) ∧
  length (courts st') ≤ 32 ∧
  omap court_team (courts st') ++ teamQueue st'
    = omap court_team (courts st) ++ teamQueue st ∧
  applyCourtCount requested st' = st'.
Proof.
  intros st'.
  assert (Hlen : length (courts st') = Z.to_nat (Z.max 0 (Z.min 32 requested))).
  { unfold st', applyCourtCount. case_bool_decide as Hn; [done|].
    case_bool_decide as Hlt; cbn [courts].
    - rewrite length_app, length_fmap, length_seq. lia.
    - rewrite length_imap, length_take. lia. }
  split_and!.
  - exact Hlen.
  - rewrite Hlen. lia.
  - unfold st', applyCourtCount. case_bool_decide as Hn; [done|].
    case_bool_decide as Hlt; cbn [courts teamQueue].
    + rewrite omap_app. f_equal.
      rewrite <- (app_nil_r (omap court_team (courts st))) at 2. f_equal.
      induction (seq _ _) as [|i l IH]; [done|]. simpl. exact IH.
    + rewrite omap_imap_teams by done.
      rewrite app_assoc, <- omap_app, take_drop. done.
  - unfold applyCourtCount at 1. by rewrite bool_decide_eq_true_2.
Qed.

Lemma findCourt_insert (cs : list Court) courtId idx c t :
  findCourt cs courtId = Some (idx, c) →
  findCourt (<[idx := setTeam c t]> cs) courtId = Some (idx, setTeam c t).
Proof.
  unfold findCourt. rewrite !list_find_Some. intros (Hc & Hid & Hfirst).
  split_and!.
  - apply list_lookup_insert_eq. by eapply lookup_lt_Some.
  - done.
  - intros j y Hy Hj. rewrite list_lookup_insert_ne in Hy by lia. by eapply Hfirst.
Qed.

(** X14. Switching off a court that has a team and switching it on again
    brings the team back: the courts, the queue and the list of disabled
    courts are as before, and the team is recorded as started once more. *)
Theorem toggleDisableCourtOnce_round_trip (courtId : nat) (st : State) idx c m ms :
  findCourt (courts st) courtId = Some (idx, c) →
  court_team c = Some (m :: ms) →
  courtId ∉ disabledCourtsOnce st →
  toggleDisableCourtOnce courtId (toggleDisableCourtOnce courtId st)
  = {| participants := participants st;
       teamQueue := teamQueue st;
       courts := courts st;
       lastTeamSigByPlayer := markTeamAsStarted (m :: ms) (lastTeamSigByPlayer st);
       priorityCarry := priorityCarry st;
       restOnce := restOnce st;
       playedCount := playedCount st;
       disabledCourtsOnce := disabledCourtsOnce st |}.
Proof.
  intros Hfind Hteam Hen.
  assert (Hoff : toggleDisableCourtOnce courtId st
    = {| participants := participants st;
         teamQueue := (m :: ms) :: teamQueue st;
         courts := <[idx := setTeam c None]> (courts st);
         lastTeamSigByPlayer := lastTeamSigByPlayer st;
         priorityCarry := priorityCarry st;
         restOnce := restOnce st;
         playedCount := playedCount st;
         disabledCourtsOnce := disabledCourtsOnce st ++ [courtId] |}).
  { unfold toggleDisableCourtOnce, isCourtDisabled.
    rewrite (bool_decide_eq_false_2 (courtId ∈ disabledCourtsOnce st)) by exact Hen.
    cbn [negb]. by rewrite Hfind, Hteam. }
  rewrite Hoff. unfold toggleDisableCourtOnce, isCourtDisabled.
  cbn [disabledCourtsOnce courts teamQueue participants lastTeamSigByPlayer
       priorityCarry restOnce playedCount].
  rewrite (bool_decide_eq_true_2 (courtId ∈ disabledCourtsOnce st ++ [courtId]))
    by (apply elem_of_app; right; by left).
  cbn [negb]. rewrite (findCourt_insert _ _ _ _ None Hfind). cbn [setTeam court_team].
  f_equal.
  - rewrite list_insert_insert_eq.
    apply list_insert_id. apply findCourt_lookup in Hfind as [Hc _].
    rewrite Hc. f_equal. destruct c; simpl in *. by subst.
  - rewrite filter_app, (filter_all (λ id, id ≠ courtId)).
    + rewrite filter_cons_False by (by intros ?). by rewrite app_nil_r.
    + intros x Hx ->. done.
Qed.

Lemma NoDup_seq_from (k n : nat) : NoDup (seq k n).
Proof. apply NoDup_ListNoDup, List.seq_NoDup. Qed.

Lemma findCourt_numbered (cs : list Court) (id : nat) :
  court_id <$> cs = seq 1 (length cs) →
  (1 ≤ id ≤ length cs →
     ∃ c, cs !! (id - 1) = Some c ∧ findCourt cs id = Some (id - 1, c)) ∧
  (¬ (1 ≤ id ≤ length cs) → findCourt cs id = None).
Proof.
  intros Hids.
  assert (Hat : ∀ j y, cs !! j = Some y → court_id y = S j).
  { intros j y Hy.
    assert (Hl : (court_id <$> cs) !! j = Some (court_id y)).
    { by rewrite list_lookup_fmap, Hy. }
    rewrite Hids in Hl. apply lookup_seq in Hl as [-> _]. done. }
  split.
  - intros Hid. destruct (lookup_lt_is_Some_2 cs (id - 1)) as [c Hc]; [lia|].
    exists c. split; [done|]. unfold findCourt. apply list_find_Some. split_and!.
    + done.
    + apply Hat in Hc. lia.
    + intros j y Hy Hj Hyid. apply Hat in Hy. lia.
  - intros Hid. unfold findCourt. apply list_find_None. apply Forall_forall.
    intros y Hy Hyid. apply list_elem_of_lookup in Hy as [j Hj].
    pose proof (lookup_lt_Some _ _ _ Hj). apply Hat in Hj. lia.
Qed.

(** X15. The courts are numbered 1, 2, ... by position, and only courts
    that exist are disabled: every command on a court of the list keeps
    that, so the court with a given number is found at its position and a
    number outside the list finds no court. *)
Theorem courtsNumbered_kept (st : State) :
  courtsNumbered st →
  (∀ requested, courtsNumbered (applyCourtCount requested st)) ∧
  (∀ courtId, 1 ≤ courtId ≤ length (courts st) →
     courtsNumbered (toggleDisableCourtOnce courtId st)) ∧
  (∀ courtId, courtsNumbered (handleFinishCourt courtId st)) ∧
  (∀ (rnd : RandomSource) fuel pos st' pos',
     handleMakeTeams rnd fuel st pos = Some (st', pos') → courtsNumbered st') ∧
  (∀ courtId name, courtsNumbered (handleRenameCourt courtId name st)) ∧
  (∀ courtId, 1 ≤ courtId ≤ length (courts st) →
     ∃ c, courts st !! (courtId - 1) = Some c ∧
          findCourt (courts st) courtId = Some (courtId - 1, c)) ∧
  (∀ courtId, ¬ (1 ≤ courtId ≤ length (courts st)) →
     findCourt (courts st) courtId = None ∧ handleFinishCourt courtId st = st).
Proof.
  intros Hnum. pose proof Hnum as [Hids Hdis]. split_and!.
  - intros requested. by apply applyCourtCount_numbered.
  - intros courtId Hid. apply toggleDisableCourtOnce_numbered; [done|].
    destruct (proj1 (findCourt_numbered _ courtId Hids) Hid) as (c & _ & ->).
    by eexists.
  - intros courtId. by apply handleFinishCourt_numbered.
  - intros rnd fuel pos st' pos'. by apply handleMakeTeams_numbered.
  - intros courtId name. unfold courtsNumbered, handleRenameCourt, setCourts.
    cbn [courts disabledCourtsOnce]. rewrite length_fmap. split; [|done].
    rewrite <- Hids, <- list_fmap_compose. apply list_fmap_ext.
    intros i c _. simpl. by case_bool_decide.
  - intros courtId Hid. by apply findCourt_numbered.
  - intros courtId Hid.
    pose proof (proj2 (findCourt_numbered _ courtId Hids) Hid) as Hnone.
    split; [done|]. unfold handleFinishCourt. by rewrite Hnone.
Qed.

Lemma teams_insert (cs : list Court) idx c t :
  cs !! idx = Some c →
  concat (omap court_team (<[idx := setTeam c t]> cs))
    ≡ₚ default [] t ++ concat (omap court_team (<[idx := setTeam c None]> cs)).
Proof.
  intros Hc. rewrite !insert_take_drop by (by eapply lookup_lt_Some).
  rewrite !omap_app, !concat_app. simpl.
  destruct t as [t|]; simpl; [|done].
  rewrite !app_assoc. apply Permutation_app_tail, Permutation_app_comm.
Qed.

Lemma teams_at (cs : list Court) idx c :
  cs !! idx = Some c →
  concat (omap court_team cs)
    ≡ₚ default [] (court_team c) ++ concat (omap court_team (<[idx := setTeam c None]> cs)).
Proof.
  intros Hc. rewrite <- (teams_insert cs idx c (court_team c) Hc).
  rewrite list_insert_id; [done|]. rewrite Hc. f_equal. by destruct c.
Qed.


(** X17. [handleRestOnce] is a switch: the name is at rest afterwards
    exactly when it was not before, no other name changes or moves, a list
    without repeats stays one, and nothing else of the state changes;
    setting a player at rest and back restores the state. *)
Theorem handleRestOnce_toggle (name : string) (st : State) :
  let st' := handleRestOnce name st in
  (name ∈ restOnce st' ↔ name ∉ restOnce st) ∧
  (∀ n, n ≠ name → (n ∈ restOnce st' ↔ n ∈ restOnce st)) ∧
  (NoDup (restOnce st) → NoDup (restOnce st')) ∧
  participants st' = participants st ∧
  priorityCarry st' = priorityCarry st ∧
  teamQueue st' = teamQueue st ∧
  courts st' = courts st ∧
  playedCount st' = playedCount st ∧
  (name ∉ restOnce st → handleRestOnce name st' = st).
Proof.
  intros st'. unfold st', handleRestOnce. cbn.
  split_and!; try done.
  - case_bool_decide as Hin.
    + rewrite list_elem_of_filter. tauto.
    + rewrite elem_of_app, list_elem_of_singleton. tauto.
  - intros n Hn. case_bool_decide as Hin.
    + rewrite list_elem_of_filter. tauto.
    + rewrite elem_of_app, list_elem_of_singleton. tauto.
  - intros Hnd. case_bool_decide as Hin.
    + by apply NoDup_filter.
    + apply NoDup_app. split_and!; [done| |apply NoDup_singleton].
      intros x Hx ->%list_elem_of_singleton. done.
  - intros Hout. rewrite (bool_decide_eq_false_2 (name ∈ restOnce st)) by done.
    rewrite bool_decide_eq_true_2 by (apply elem_of_app; right; by left).
    rewrite filter_app, (filter_all (λ n, n ≠ name)) by (by intros x Hx ->).
    rewrite filter_cons_False by (by intros ?).
    rewrite app_nil_r. by destruct st.
Qed.

(** X18. The X button of a waiting player removes the entry at its
    position from the waiting pool, and the name from the rest-once list
    and the carry-over; the other names and the counts stay, so a player
    who comes back is known by the count. *)
Theorem handleRemoveParticipant_spec (name : string) (index : nat) (st : State) :
  participants st !! index = Some name →
  let st' := handleRemoveParticipant name index st in
  participants st = take index (participants st') ++ name :: drop index (participants st') ∧
  length (participants st) = S (length (participants st')) ∧
  (NoDup (participants st) → name ∉ participants st') ∧
  (name ∉ restOnce st') ∧ (name ∉ priorityCarry st') ∧
  (∀ n, n ≠ name →
     (n ∈ restOnce st' ↔ n ∈ restOnce st) ∧
     (n ∈ priorityCarry st' ↔ n ∈ priorityCarry st)) ∧
  playedCount st' = playedCount st ∧
  teamQueue st' = teamQueue st ∧ courts st' = courts st.
Proof.
  intros Hat st'. unfold st', handleRemoveParticipant. cbn.
  assert (Hsplit : participants st
    = take index (participants st) ++ name :: drop (S index) (participants st)).
  { by rewrite take_drop_middle. }
  assert (Hdel : delete index (participants st)
    = take index (participants st) ++ drop (S index) (participants st)).
  { apply delete_take_drop. }
  pose proof (lookup_lt_Some _ _ _ Hat) as Hlt.
  assert (Hlen : length (take index (participants st)) = index).
  { rewrite length_take. lia. }
  split_and!; try done.
  - rewrite Hdel. rewrite take_app_length' by done.
    rewrite drop_app_length' by done. exact Hsplit.
  - rewrite length_delete by eauto. lia.
  - intros Hnd. rewrite Hsplit in Hnd. rewrite Hdel.
    apply NoDup_app in Hnd as (_ & Hap & Hnd). apply NoDup_cons in Hnd as [Hout _].
    rewrite elem_of_app. intros [Hin|Hin]; [|done].
    apply (Hap name Hin). by left.
  - rewrite list_elem_of_filter. tauto.
  - rewrite list_elem_of_filter. tauto.
  - intros n Hn. rewrite !list_elem_of_filter. tauto.
Qed.

End EngineProperties.

(** ** Formation runs *)

Section FormationProperties.
Context `{HostStrings}.

Lemma concat_length_four (gs : list (list string)) :
  Forall (λ g, length g = 4) gs → length (concat gs) = 4 * length gs.
Proof.
  induction 1 as [|g gs Hg _ IH]; [done|].
  simpl. rewrite length_app, IH, Hg. lia.
Qed.

Lemma formTeams_leftOver rnd fuel st pos f pos' :
  formTeams rnd fuel st pos = Some (f, pos') → length (leftOver f) < 4.
Proof.
  unfold formTeams.
  destruct (priorityLoop _ (eligiblePriorityCarry st) (others st) [])
    as [[pl1 pool1] out1] eqn:E1.
  apply priorityLoop_spec in E1 as (new1 & -> & Hp1 & Hall1 & Hlt1 & _).
  destruct (priorityTopUp _ _ rnd pl1 pool1 ([] ++ new1) pos)
    as [[[pl2 pool2] out2] pos2] eqn:E2.
  assert (Htop : pl2 = [] ∨ length pl2 + length pool2 < 4).
  { unfold priorityTopUp in E2. case_bool_decide as Hpos.
    - case_bool_decide as Hneed.
      + destruct (weightedSampleWithoutReplacement _ _ _ _ _) as [[picked rest] p1].
        destruct (breakIfRepeat _ _ _) as [[team' pool']|];
          injection E2 as <- <- <- <-; by left.
      + injection E2 as <- <- <- <-. right. lia.
    - injection E2 as <- <- <- <-. left. destruct pl1; [done|simpl in Hpos; lia]. }
  destruct (genericLoop _ _ rnd fuel pool2 [] pos2) as [[[pool3 out3] pos3]|] eqn:E3;
    [|done].
  apply genericLoop_spec in E3 as (new3 & -> & Hp3 & Hall3 & Hlt3).
  intros [= <- <-]. cbn [leftOver]. rewrite length_app.
  destruct Htop as [->|Hshort]; [simpl; lia|].
  apply Permutation_length in Hp3. rewrite length_app in Hp3. lia.
Qed.

(** X19. A formation run makes as many teams as the players in its two
    inputs allow: with [n] players in the eligible carry-over and the
    generic pool, it forms [n / 4] teams of four and carries [n mod 4]
    players over, so never more than three. *)
Theorem handleMakeTeams_carry (rnd : RandomSource) fuel (st : State) pos st' pos' :
  4 ≤ totalAvailable st →
  handleMakeTeams rnd fuel st pos = Some (st', pos') →
  ∃ f, formTeams rnd fuel st pos = Some (f, pos') ∧
    priorityCarry st' = leftOver f ∧
    length (priorityTeamsOut f ++ otherTeamsOut f)
      = (length (eligiblePriorityCarry st) + length (others st)) / 4 ∧
    length (priorityCarry st')
      = (length (eligiblePriorityCarry st) + length (others st)) `mod` 4 ∧
    length (priorityCarry st') < 4.
Proof.
  intros Hfour. unfold handleMakeTeams.
  rewrite bool_decide_eq_false_2 by lia.
  destruct (formTeams rnd fuel st pos) as [[f p]|] eqn:Ef; [|done].
  intros [= <- <-]. exists f. split; [done|].
  assert (Hcarry : priorityCarry (seatTeams st f) = leftOver f).
  { unfold seatTeams.
    destruct (assignLoop _ (courts st) _ _) as [[courts1 existingQueue] sigs1].
    by destruct (assignLoop _ courts1 _ _) as [[courts2 queueAfterAssign] sigs2]. }
  rewrite Hcarry. split; [done|].
  pose proof (formTeams_leftOver _ _ _ _ _ _ Ef) as Hlt.
  apply formTeams_spec in Ef as [Hp Hall].
  apply Permutation_length in Hp.
  rewrite !length_app, (concat_length_four _ Hall), length_app in Hp.
  rewrite length_app.
  set (n := length (eligiblePriorityCarry st) + length (others st)) in *.
  set (k := length (priorityTeamsOut f) + length (otherTeamsOut f)) in *.
  assert (Hn : n = k * 4 + length (leftOver f)) by lia.
  split_and!; [|  |done].
  - rewrite Hn. rewrite Nat.div_add_l by lia. rewrite Nat.div_small by lia. lia.
  - rewrite Hn. rewrite Nat.add_comm, Nat.Div0.mod_add. symmetry. by apply Nat.mod_small.
Qed.

Lemma assignLoop_conserves disabled cs teams sigs cs' unplaced sigs' :
  assignLoop disabled cs teams sigs = (cs', unplaced, sigs') →
  omap court_team cs' ++ unplaced ≡ₚ omap court_team cs ++ teams.
Proof.
  revert teams sigs cs' unplaced sigs'.
  induction cs as [|c cs IH]; intros teams sigs cs' unplaced sigs'.
  - simpl. by intros [= <- <- <-].
  - cbn [assignLoop].
    assert (Hskip : ∀ r,
      (let '(cs0, unplaced0, sigs0) := assignLoop disabled cs teams sigs in
       (c :: cs0, unplaced0, sigs0)) = r → r = (cs', unplaced, sigs') →
      omap court_team cs' ++ unplaced ≡ₚ omap court_team (c :: cs) ++ teams).
    { intros r Hr ->.
      destruct (assignLoop disabled cs teams sigs) as [[cs0 u0] s0] eqn:E.
      injection Hr as <- <- <-. apply IH in E. simpl.
      destruct (court_team c); simpl; by rewrite E. }
    destruct (court_team c) as [t|] eqn:Et.
    { intros Hr. by eapply Hskip. }
    destruct teams as [|nextTeam teams'].
    { intros Hr. by eapply Hskip. }
    destruct (negb (isCourtDisabled disabled (court_id c))).
    + destruct (assignLoop disabled cs teams' _) as [[cs0 u0] s0] eqn:E.
      intros [= <- <- <-]. apply IH in E. simpl. rewrite Et.
      rewrite E. apply Permutation_middle.
    + intros Hr. by eapply Hskip.
Qed.

Lemma seatTeams_teams (st : State) (f : Formed) :
  omap court_team (courts (seatTeams st f)) ++ teamQueue (seatTeams st f)
    ≡ₚ omap court_team (courts st) ++ teamQueue st
       ++ priorityTeamsOut f ++ otherTeamsOut f.
Proof.
  unfold seatTeams.
  destruct (assignLoop _ (courts st) _ _) as [[courts1 existingQueue] sigs1] eqn:E1.
  destruct (assignLoop _ courts1 _ _) as [[courts2 queueAfterAssign] sigs2] eqn:E2.
  cbn [courts teamQueue].
  apply assignLoop_conserves in E1. apply assignLoop_conserves in E2.
  rewrite arraySort_perm in E2.
  rewrite (Permutation_app_comm existingQueue), app_assoc, E2.
  rewrite <- app_assoc, (Permutation_app_comm _ existingQueue), app_assoc, E1.
  by rewrite <- app_assoc.
Qed.

Lemma seatTeams_fields (st : State) (f : Formed) :
  participants (seatTeams st f) = filter (λ p, p ∈ restOnce st) (participants st) ∧
  priorityCarry (seatTeams st f) = leftOver f ∧
  restOnce (seatTeams st f) = [] ∧
  playedCount (seatTeams st f) = playedCount st ∧
  disabledCourtsOnce (seatTeams st f) = disabledCourtsOnce st.
Proof.
  unfold seatTeams.
  destruct (assignLoop _ (courts st) _ _) as [[courts1 existingQueue] sigs1].
  by destruct (assignLoop _ courts1 _ _) as [[courts2 queueAfterAssign] sigs2].
Qed.

(** X20. A formation run seats and queues whole teams: the teams on the
    courts and in the queue afterwards are the teams that were there and
    the teams just formed, each once and with the members it had.  The
    waiting pool keeps the players at rest and nobody else; the counts and
    the disabled courts do not change. *)
Theorem handleMakeTeams_teams (rnd : RandomSource) fuel (st : State) pos st' pos' :
  4 ≤ totalAvailable st →
  handleMakeTeams rnd fuel st pos = Some (st', pos') →
  ∃ f, formTeams rnd fuel st pos = Some (f, pos') ∧
    omap court_team (courts st') ++ teamQueue st'
      ≡ₚ omap court_team (courts st) ++ teamQueue st
         ++ priorityTeamsOut f ++ otherTeamsOut f ∧
    participants st' = filter (λ p, p ∈ restOnce st) (participants st) ∧
    restOnce st' = [] ∧
    playedCount st' = playedCount st ∧
    disabledCourtsOnce st' = disabledCourtsOnce st.
Proof.
  intros Hfour. unfold handleMakeTeams.
  rewrite bool_decide_eq_false_2 by lia.
  destruct (formTeams rnd fuel st pos) as [[f p]|] eqn:Ef; [|done].
  intros [= <- <-]. exists f. split; [done|].
  destruct (seatTeams_fields st f) as (? & ? & ? & ? & ?).
  split_and!; try done. apply seatTeams_teams.
Qed.

Lemma assignLoop_none_free disabled cs teams sigs :
  Forall (λ c, is_Some (court_team c)) cs →
  assignLoop disabled cs teams sigs = (cs, teams, sigs).
Proof.
  induction 1 as [|c cs [t Ht] _ IH]; [done|].
  cbn [assignLoop]. by rewrite Ht, IH.
Qed.

Lemma seatTeams_none_free (st : State) (f : Formed) :
  Forall (λ c, is_Some (court_team c)) (courts st) →
  courts (seatTeams st f) = courts st ∧
  teamQueue (seatTeams st f)
  = teamQueue st ++ priorityTeamsOut f
    ++ arraySort (compareAvg (playedCount st)) (otherTeamsOut f).
Proof.
  intros Hall. unfold seatTeams. by rewrite !assignLoop_none_free.
Qed.

(** X21. A formation run forgets a player of the carry-over who is at
    rest: the run does not read the player, the new carry-over replaces
    the old one, and only waiting players at rest are put back.  Such a
    player, who is on no court and in no queued team, is in none of the
    lists of the state afterwards, so [getAllNamesSet] does not know the
    name any more. *)
Theorem handleMakeTeams_forgets (rnd : RandomSource) fuel (st : State) pos st' pos'
    (name : string) :
  4 ≤ totalAvailable st →
  handleMakeTeams rnd fuel st pos = Some (st', pos') →
  name ∈ priorityCarry st →
  name ∈ restOnce st →
  name ∉ participants st →
  name ∉ concat (teamQueue st) →
  name ∉ concat (omap court_team (courts st)) →
  name ∈ getAllNamesSet st ∧ name ∉ getAllNamesSet st'.
Proof.
  intros Hfour Hrun Hcarry Hrest Hwait Hqueue Hcourt. split.
  { unfold getAllNamesSet. rewrite !elem_of_union, !elem_of_list_to_set. tauto. }
  revert Hrun. unfold handleMakeTeams. rewrite bool_decide_eq_false_2 by lia.
  destruct (formTeams rnd fuel st pos) as [[f p]|] eqn:Ef; [|done].
  intros [= <- <-].
  destruct (seatTeams_fields st f) as (Hp & Hc & _).
  pose proof (seatTeams_teams st f) as Hteams.
  apply formTeams_spec in Ef as [Hperm _].
  assert (Hnew : name ∉ concat (priorityTeamsOut f ++ otherTeamsOut f) ++ leftOver f).
  { rewrite Hperm. rewrite elem_of_app.
    unfold others, eligiblePriorityCarry, eligibleParticipants.
    rewrite !list_elem_of_filter. tauto. }
  rewrite elem_of_app in Hnew.
  assert (Hafter : name ∉ concat (omap court_team (courts (seatTeams st f))
                                  ++ teamQueue (seatTeams st f))).
  { rewrite Hteams. rewrite !concat_app, !elem_of_app.
    rewrite concat_app, elem_of_app in Hnew. tauto. }
  rewrite concat_app, elem_of_app in Hafter.
  unfold getAllNamesSet. rewrite !elem_of_union, !elem_of_list_to_set.
  rewrite Hp, Hc, list_elem_of_filter. tauto.
Qed.

Lemma genericLoop_fuel sigs weightFn (rnd : RandomSource) fuel fuel' pool out pos r :
  genericLoop sigs weightFn rnd fuel pool out pos = Some r → fuel ≤ fuel' →
  genericLoop sigs weightFn rnd fuel' pool out pos = Some r.
Proof.
  revert fuel' pool out pos. induction fuel as [|fuel IH]; intros fuel' pool out pos.
  - simpl. case_bool_decide as Hlen; [done|]. intros Hr _.
    destruct fuel'; cbn [genericLoop]; by rewrite bool_decide_eq_false_2.
  - intros Hr Hle. destruct fuel' as [|fuel']; [lia|].
    cbn [genericLoop] in *. case_bool_decide as Hlen; [|done].
    destruct (weightedSampleWithoutReplacement pool 4 weightFn rnd pos)
      as [[picked rest] pos1].
    destruct (isExactRepeatTeamWithMap picked sigs).
    + destruct (tryBreak sigs picked rest) as [[group tail]|].
      * apply IH; [done|lia].
      * case_bool_decide.
        -- destruct (shuffle rnd pool pos1) as [pool1 pos2]. apply IH; [done|lia].
        -- apply IH; [done|lia].
    + apply IH; [done|lia].
Qed.

(** X22. A formation run on a waiting pool and a carry-over that each list
    different names completes, whatever numbers are drawn: the loop of
    step 3 makes at most as many passes as there are waiting players, and
    its result is the same however many more it is allowed. *)
Theorem handleMakeTeams_completes (rnd : RandomSource) (st : State) (pos : nat) :
  NoDup (participants st) → NoDup (priorityCarry st) →
  ∃ st' pos', ∀ fuel, length (participants st) ≤ fuel →
    handleMakeTeams rnd fuel st pos = Some (st', pos').
Proof.
  intros Hnd1 Hnd2.
  destruct (handleMakeTeams_terminates rnd (length (participants st)) st pos Hnd1 Hnd2)
    as [[st' pos'] Hrun]; [done|].
  exists st', pos'. intros fuel Hfuel. revert Hrun. unfold handleMakeTeams.
  case_bool_decide; [done|]. unfold formTeams.
  destruct (priorityLoop _ _ _ _) as [[pl1 pool1] out1].
  destruct (priorityTopUp _ _ _ _ _ _ _) as [[[pl2 pool2] out2] pos2].
  destruct (genericLoop _ _ rnd (length (participants st)) pool2 [] pos2)
    as [r|] eqn:E; [|done].
  by rewrite (genericLoop_fuel _ _ _ _ fuel _ _ _ _ E Hfuel).
Qed.

Lemma filter_rest_length (l r : list string) :
  NoDup l → NoDup r →
  length l ≤ length (filter (λ p, p ∉ r) l) + length r ∧
  ((∀ n, n ∈ r → n ∈ l) → length l = length (filter (λ p, p ∉ r) l) + length r).
Proof.
  intros Hl Hr.
  pose proof (filter_app_complement (λ p, p ∈ r) l) as Hc.
  apply Permutation_length in Hc. rewrite length_app in Hc.
  assert (Hin : filter (λ p, p ∈ r) l ⊆+ r).
  { apply NoDup_submseteq; [by apply NoDup_filter|].
    intros x Hx. by apply list_elem_of_filter in Hx as [? _]. }
  apply submseteq_length in Hin. split; [lia|].
  intros Hsub.
  assert (Hni : r ⊆+ filter (λ p, p ∈ r) l).
  { apply NoDup_submseteq; [done|]. intros x Hx. apply list_elem_of_filter. auto. }
  apply submseteq_length in Hni. lia.
Qed.

(** X23. The button that makes teams counts entries, not eligible players.
    When nobody is listed twice in the waiting pool and the carry-over or
    in the rest-once list, an enabled button means a run that has four
    eligible players; and when every player at rest is in the waiting pool
    or the carry-over, the button is disabled exactly when the run would
    form no team for want of players. *)
Theorem makeTeamsDisabled_spec (st : State) :
  NoDup (participants st ++ priorityCarry st) → NoDup (restOnce st) →
  (makeTeamsDisabled st = false → 4 ≤ totalAvailable st) ∧
  ((∀ n, n ∈ restOnce st → n ∈ participants st ++ priorityCarry st) →
     makeTeamsDisabled st = bool_decide (totalAvailable st < 4)).
Proof.
  intros Hnd Hr.
  destruct (filter_rest_length _ _ Hnd Hr) as [Hle Heq].
  rewrite filter_app, !length_app in Hle. rewrite filter_app, !length_app in Heq.
  unfold makeTeamsDisabled, totalAvailable, eligibleParticipants, eligiblePriorityCarry.
  split.
  - intros Hb. apply bool_decide_eq_false in Hb. lia.
  - intros Hsub. specialize (Heq Hsub). apply bool_decide_ext. lia.
Qed.

End FormationProperties.

(** ** Drag and drop *)

Lemma getAllNamesSet_allPlayers (st : State) n :
  n ∈ getAllNamesSet st ↔ n ∈ allPlayers st.
Proof.
  unfold getAllNamesSet, allPlayers.
  rewrite !elem_of_union, !elem_of_list_to_set, !elem_of_app. tauto.
Qed.

Section DragProperties.
Context `{HostStrings}.


Lemma concat_lookup_team (q : list (list string)) ti t :
  q !! ti = Some t →
  concat q ≡ₚ t ++ concat (delete ti q) ∧
  ∀ t', concat (<[ti := t']> q) ≡ₚ t' ++ concat (delete ti q).
Proof.
  intros Ht. pose proof (lookup_lt_Some _ _ _ Ht) as Hlt.
  rewrite delete_take_drop. split.
  - rewrite <- (take_drop_middle q ti t Ht) at 1.
    rewrite !concat_app. simpl. rewrite !app_assoc.
    apply Permutation_app_tail, Permutation_app_comm.
  - intros t'. rewrite insert_take_drop by done.
    rewrite !concat_app. simpl. rewrite !app_assoc.
    apply Permutation_app_tail, Permutation_app_comm.
Qed.

Ltac fields :=
  cbn [participants priorityCarry teamQueue courts restOnce playedCount
       disabledCourtsOnce lastTeamSigByPlayer setParticipants setTeamQueue
       setCourts setPriorityCarry setPlayedCount drag_name drag_from] in *.

(** Taking the chip of a payload out of its source takes that one entry
    out of the state. *)
Lemma removeFromSource_takes (source : DragSource) (st : State) name :
  chipAt source st = Some name →
  ∃ st1, removeFromSource source st = Some st1 ∧
    allPlayers st ≡ₚ name :: allPlayers st1 ∧
    restOnce st1 = restOnce st ∧
    playedCount st1 = playedCount st ∧
    disabledCourtsOnce st1 = disabledCourtsOnce st ∧
    lastTeamSigByPlayer st1 = lastTeamSigByPlayer st ∧
    length (courts st1) = length (courts st) ∧
    match source with
    | FromParticipants i =>
        participants st1 = delete i (participants st) ∧
        priorityCarry st1 = priorityCarry st ∧ teamQueue st1 = teamQueue st ∧
        courts st1 = courts st
    | FromQueue _ _ =>
        participants st1 = participants st ∧ priorityCarry st1 = priorityCarry st ∧
        courts st1 = courts st
    | FromCourt _ _ =>
        participants st1 = participants st ∧ priorityCarry st1 = priorityCarry st ∧
        teamQueue st1 = teamQueue st
    | FromPriority i =>
        participants st1 = participants st ∧
        priorityCarry st1 = delete i (priorityCarry st) ∧
        teamQueue st1 = teamQueue st ∧ courts st1 = courts st
    end.
Proof.
  unfold chipAt, removeFromSource, allPlayers.
  destruct source as [i|ti mi|cid mi|i]; intros Hchip.
  - eexists. split; [done|]. fields. split_and!; try done.
    etrans; [apply Permutation_app_tail, (delete_Permutation _ _ _ Hchip)|]. done.
  - destruct (teamQueue st !! ti) as [t|] eqn:Et; [|done]. simpl in Hchip.
    eexists. split; [done|]. fields. split_and!; try done.
    destruct (concat_lookup_team _ _ _ Et) as [Hq Hins].
    pose proof (delete_Permutation _ _ _ Hchip) as Ht.
    set (q' := if bool_decide (length (delete mi t) = 0)
               then delete ti (teamQueue st) else <[ti:=delete mi t]> (teamQueue st)).
    assert (Hcq : concat (teamQueue st) ≡ₚ name :: concat q').
    { etrans; [exact Hq|]. unfold q'. case_bool_decide as Hlen.
      - apply length_zero_iff_nil in Hlen. rewrite Hlen in Ht.
        etrans; [apply Permutation_app_tail, Ht|]. done.
      - etrans; [apply Permutation_app_tail, Ht|]. simpl.
        constructor. symmetry. apply Hins. }
    etrans; [apply Permutation_app_head, Permutation_app_head,
             Permutation_app_tail, Hcq|].
    simpl. by rewrite <- !Permutation_middle.
  - destruct (findCourt (courts st) cid) as [[idx c]|] eqn:Ef; [|done].
    simpl in Hchip. destruct (court_team c) as [t|] eqn:Et; [|done].
    simpl in Hchip. eexists. split; [done|]. fields.
    pose proof (findCourt_lookup _ _ _ _ Ef) as [Hc _].
    split_and!; try done; [|by rewrite length_insert].
    pose proof (delete_Permutation _ _ _ Hchip) as Ht.
    set (t' := if bool_decide (length (delete mi t) = 0) then None
               else Some (delete mi t)).
    assert (Hd : default [] t' = delete mi t).
    { unfold t'. case_bool_decide as Hlen; [|done].
      by apply length_zero_iff_nil in Hlen. }
    assert (Hcc : concat (omap court_team (courts st))
      ≡ₚ name :: concat (omap court_team (<[idx := setTeam c t']> (courts st)))).
    { etrans; [apply (teams_at _ _ _ Hc)|]. rewrite Et. simpl.
      etrans; [apply Permutation_app_tail, Ht|]. simpl. constructor.
      symmetry. etrans; [apply (teams_insert _ _ _ _ Hc)|]. by rewrite Hd. }
    etrans; [do 3 apply Permutation_app_head; exact Hcc|].
    by rewrite <- !Permutation_middle.
  - eexists. split; [done|]. fields. split_and!; try done.
    etrans; [apply Permutation_app_head, Permutation_app_tail,
             (delete_Permutation _ _ _ Hchip)|].
    simpl. by rewrite <- !Permutation_middle.
Qed.

(** X25. A drop on the waiting pool, or on the area of the carry-over,
    moves the player of the chip there: when every player is listed once
    and the payload names the chip at its source, the player is at the
    end of the waiting pool, or at the front of the carry-over, and the
    players listed are the same as before, each once.  A chip of the
    waiting pool dropped on the waiting pool, or of the carry-over on the
    carry-over, changes nothing. *)
Theorem drop_moves_player (data : DragData) (st : State) :
  NoDup (allPlayers st) →
  chipAt (drag_from data) st = Some (drag_name data) →
  (∃ st', handleDropToParticipants data st = Some st' ∧
     allPlayers st' ≡ₚ allPlayers st ∧
     getAllNamesSet st' = getAllNamesSet st ∧
     restOnce st' = restOnce st ∧
     (∀ n, getCount (playedCount st') n = getCount (playedCount st) n) ∧
     match drag_from data with
     | FromParticipants _ => st' = st
     | _ => participants st' = participants st ++ [drag_name data]
     end) ∧
  (∃ st', handleDropToPriorityContainer data st = Some st' ∧
     allPlayers st' ≡ₚ allPlayers st ∧
     getAllNamesSet st' = getAllNamesSet st ∧
     restOnce st' = restOnce st ∧
     playedCount st' = playedCount st ∧
     match drag_from data with
     | FromPriority _ => st' = st
     | _ => priorityCarry st' = drag_name data :: priorityCarry st
     end).
Proof.
  intros Hnd Hchip. destruct data as [name source]. cbn [drag_name drag_from] in *.
  destruct (removeFromSource_takes _ _ _ Hchip)
    as (st1 & Hrem & Hall & Hrest & Hcount & _ & _ & _ & Hkeep).
  assert (Hout : name ∉ allPlayers st1).
  { rewrite Hall in Hnd. by apply NoDup_cons in Hnd as [? _]. }
  assert (Hp : name ∉ participants st1).
  { intros Hin. apply Hout. unfold allPlayers. rewrite !elem_of_app. tauto. }
  assert (Hc : name ∉ priorityCarry st1).
  { intros Hin. apply Hout. unfold allPlayers. rewrite !elem_of_app. tauto. }
  assert (Hfp : filter (λ n, n ≠ name) (participants st1) = participants st1).
  { apply filter_all. by intros x Hx ->. }
  assert (Hfc : filter (λ n, n ≠ name) (priorityCarry st1) = priorityCarry st1).
  { apply filter_all. by intros x Hx ->. }
  assert (Hset : ∀ st', allPlayers st' ≡ₚ allPlayers st →
                        getAllNamesSet st' = getAllNamesSet st).
  { intros st' Hperm. apply set_eq. intros n.
    by rewrite !getAllNamesSet_allPlayers, Hperm. }
  split.
  - unfold handleDropToParticipants. cbn [drag_name drag_from].
    destruct (canDrop source ToParticipants) eqn:Ecan; cbn [negb].
    + rewrite Hrem. simpl. eexists. split; [done|].
      unfold addToParticipants. fields. rewrite Hfp, Hfc.
      match goal with |- allPlayers ?s ≡ₚ _ ∧ _ =>
        assert (Hperm : allPlayers s ≡ₚ allPlayers st) end.
      { rewrite Hall. unfold allPlayers. fields. rewrite <- !app_assoc. simpl.
        symmetry. apply Permutation_middle. }
      split_and!.
      * exact Hperm.
      * by apply Hset.
      * done.
      * intros n. unfold getCount. rewrite ensureCountsFor_lookup, Hcount.
        case_bool_decide; [|done]. by destruct (playedCount st !! n).
      * destruct source; try done; destruct Hkeep as [-> _]; done.
    + destruct source; try done. eexists. by split_and!.
  - unfold handleDropToPriorityContainer. cbn [drag_name drag_from].
    destruct (canDrop source ToPriority) eqn:Ecan; cbn [negb].
    + rewrite Hrem. simpl. eexists. split; [done|]. fields. rewrite Hfc.
      match goal with |- allPlayers ?s ≡ₚ _ ∧ _ =>
        assert (Hperm : allPlayers s ≡ₚ allPlayers st) end.
      { rewrite Hall. unfold allPlayers. fields. symmetry. apply Permutation_middle. }
      split_and!; try done.
      * by apply Hset.
      * destruct source; try done; destruct Hkeep as (_ & -> & _); done.
    + destruct source; try done. eexists. by split_and!.
Qed.

Lemma findCourt_insert_other (cs : list Court) courtId idx c idx' c' t :
  findCourt cs courtId = Some (idx, c) →
  cs !! idx' = Some c' → court_id c' ≠ courtId →
  findCourt (<[idx' := setTeam c' t]> cs) courtId = Some (idx, c).
Proof.
  unfold findCourt. rewrite !list_find_Some. intros (Hc & Hid & Hfirst) Hc' Hne.
  assert (Hidx : idx ≠ idx').
  { intros ->. rewrite Hc in Hc'. injection Hc' as ->. done. }
  split_and!.
  - by rewrite list_lookup_insert_ne.
  - done.
  - intros j y Hy Hj. destruct (decide (j = idx')) as [->|Hjne].
    + rewrite list_lookup_insert_eq in Hy by (by eapply lookup_lt_Some).
      injection Hy as <-. done.
    + rewrite list_lookup_insert_ne in Hy by done. by eapply Hfirst.
Qed.

Lemma removeFromSource_target (source : DragSource) (st st1 : State) courtId idx c :
  removeFromSource source st = Some st1 →
  canDrop source (ToCourt courtId) = true →
  findCourt (courts st) courtId = Some (idx, c) →
  findCourt (courts st1) courtId = Some (idx, c).
Proof.
  intros Hrem Hcan Hfind. destruct source as [i|ti mi|cid mi|i]; simpl in Hrem.
  - by injection Hrem as <-.
  - destruct (teamQueue st !! ti); [|done]. by injection Hrem as <-.
  - injection Hrem as <-. fields.
    simpl in Hcan. apply negb_true_iff, bool_decide_eq_false in Hcan.
    destruct (findCourt (courts st) cid) as [[idx' c']|] eqn:Ef; [|done].
    destruct (court_team c'); [|done].
    apply findCourt_lookup in Ef as [Hc' Hid'].
    apply findCourt_insert_other; [done|done|]. by rewrite Hid'.
  - by injection Hrem as <-.
Qed.

(** X26. A drop on a court is refused, and changes nothing, when the court
    is disabled, when it has four players, or when the chip comes from
    that court.  Otherwise the player of the chip is taken from its
    source and is the last member of the team of the court, and the
    players listed in the state are the same as before. *)
Theorem handleDropToCourtContainer_spec (data : DragData) (courtId : nat) (st : State)
    idx c :
  findCourt (courts st) courtId = Some (idx, c) →
  chipAt (drag_from data) st = Some (drag_name data) →
  (isCourtDisabled (disabledCourtsOnce st) courtId = true
   ∨ 4 ≤ length (default [] (court_team c))
   ∨ canDrop (drag_from data) (ToCourt courtId) = false →
     handleDropToCourtContainer data courtId st = Some st) ∧
  (isCourtDisabled (disabledCourtsOnce st) courtId = false →
   length (default [] (court_team c)) < 4 →
   canDrop (drag_from data) (ToCourt courtId) = true →
   ∃ st', handleDropToCourtContainer data courtId st = Some st' ∧
     court_team <$> courts st' !! idx
       = Some (Some (default [] (court_team c) ++ [drag_name data])) ∧
     allPlayers st' ≡ₚ allPlayers st ∧
     (∀ n, getCount (playedCount st') n = getCount (playedCount st) n)).
Proof.
  intros Hfind Hchip. destruct data as [name source]. fields.
  unfold handleDropToCourtContainer. fields. rewrite Hfind. split.
  - intros [Hdis|[Hfull|Hcan]].
    + rewrite Hdis. by rewrite orb_true_r.
    + destruct (negb _ || _); [done|]. by rewrite bool_decide_eq_true_2.
    + by rewrite Hcan.
  - intros Hen Hroom Hcan. rewrite Hcan, Hen. cbn [negb orb].
    rewrite bool_decide_eq_false_2 by lia.
    destruct (removeFromSource_takes _ _ _ Hchip)
      as (st1 & Hrem & Hall & _ & Hcount & Hdis & _ & _ & _).
    rewrite Hrem. simpl.
    pose proof (removeFromSource_target _ _ _ _ _ _ Hrem Hcan Hfind) as Hfind1.
    pose proof (findCourt_lookup _ _ _ _ Hfind1) as [Hc1 _].
    unfold addToCourt. rewrite Hdis, Hen, Hfind1.
    rewrite bool_decide_eq_false_2 by lia.
    eexists. split; [done|]. fields. split_and!.
    + rewrite list_lookup_insert_eq by (by eapply lookup_lt_Some). done.
    + rewrite Hall. unfold allPlayers. fields.
      assert (Hcc : concat (omap court_team
                 (<[idx := setTeam c (Some (default [] (court_team c) ++ [name]))]>
                    (courts st1)))
               ≡ₚ name :: concat (omap court_team (courts st1))).
      { etrans; [apply (teams_insert _ _ _ _ Hc1)|].
        rewrite (teams_at _ _ _ Hc1). simpl.
        rewrite <- app_assoc. simpl. symmetry. apply Permutation_middle. }
      etrans; [do 3 apply Permutation_app_head; exact Hcc|].
      by rewrite <- !Permutation_middle.
    + intros n. unfold getCount. rewrite ensureCountsFor_lookup, Hcount.
      case_bool_decide; [|done]. by destruct (playedCount st !! n).
Qed.

Lemma kept_after (name : string) (memberIndex k : nat) (l : list string) :
  memberIndex < k →
  omap (λ '(i, n), if bool_decide (i ≠ memberIndex ∧ n ≠ name) then Some n else None)
       (imap (λ i, pair (k + i)) l)
  = filter (λ n, n ≠ name) l.
Proof.
  revert k. induction l as [|x l IH]; intros k Hk; [done|].
  rewrite imap_cons. csimpl.
  rewrite (imap_ext _ (λ i, pair (S k + i)) l)
    by (intros i y _; simpl; f_equal; lia).
  rewrite (IH (S k)) by lia.
  rewrite (bool_decide_ext (k + 0 ≠ memberIndex ∧ x ≠ name) (x ≠ name))
    by (split; [tauto|intros ?; split; [lia|done]]).
  case_bool_decide.
  - by rewrite filter_cons_True.
  - by rewrite filter_cons_False by tauto.
Qed.

Lemma kept_from (name : string) (memberIndex k : nat) (l : list string) :
  k ≤ memberIndex →
  omap (λ '(i, n), if bool_decide (i ≠ memberIndex ∧ n ≠ name) then Some n else None)
       (imap (λ i, pair (k + i)) l)
  = filter (λ n, n ≠ name) (delete (memberIndex - k) l).
Proof.
  revert k. induction l as [|x l IH]; intros k Hk; [done|].
  rewrite imap_cons. csimpl.
  rewrite (imap_ext _ (λ i, pair (S k + i)) l)
    by (intros i y _; simpl; f_equal; lia).
  destruct (decide (memberIndex = k)) as [->|Hne].
  - rewrite bool_decide_eq_false_2 by lia.
    rewrite kept_after by lia. by rewrite Nat.sub_diag.
  - rewrite (IH (S k)) by lia.
    replace (memberIndex - k) with (S (memberIndex - S k)) by lia. simpl.
    rewrite (bool_decide_ext (k + 0 ≠ memberIndex ∧ x ≠ name) (x ≠ name))
      by (split; [tauto|intros ?; split; [lia|done]]).
    case_bool_decide.
    + by rewrite filter_cons_True.
    + by rewrite filter_cons_False by tauto.
Qed.

Lemma kept_filter (name : string) (memberIndex : nat) (l : list string) :
  omap (λ '(i, n), if bool_decide (i ≠ memberIndex ∧ n ≠ name) then Some n else None)
       (imap pair l)
  = filter (λ n, n ≠ name) (delete memberIndex l).
Proof.
  pose proof (kept_from name memberIndex 0 l ltac:(lia)) as Hk.
  rewrite Nat.sub_0_r in Hk. rewrite <- Hk. f_equal.
Qed.

(** X27. A chip of the waiting pool dropped on a chip of the carry-over
    changes places with it, but for the position: when every player is
    listed once, the player dragged is at the front of the carry-over, the
    player dropped on has left the carry-over for the position the other
    had in the waiting pool, and the players listed are the same as
    before. *)
Theorem handleDropToPriorityChip_swap (name r : string) (fromIndex memberIndex : nat)
    (st : State) :
  NoDup (allPlayers st) →
  participants st !! fromIndex = Some name →
  priorityCarry st !! memberIndex = Some r →
  r ≠ "" →
  ∃ st',
    handleDropToPriorityChip
      {| drag_name := name; drag_from := FromParticipants fromIndex |} memberIndex st
    = Some st' ∧
    participants st' = <[fromIndex := r]> (participants st) ∧
    priorityCarry st' = name :: delete memberIndex (priorityCarry st) ∧
    teamQueue st' = teamQueue st ∧ courts st' = courts st ∧
    allPlayers st' ≡ₚ allPlayers st.
Proof.
  intros Hnd Hname Hr Hne. unfold allPlayers in Hnd.
  apply NoDup_app in Hnd as (HndP & Hsep & Hnd).
  apply NoDup_app in Hnd as (HndC & _ & _).
  assert (HrP : r ∉ participants st).
  { intros Hin. apply (Hsep r Hin). apply elem_of_app. left.
    by eapply list_elem_of_lookup_2. }
  assert (HnC : name ∉ priorityCarry st).
  { intros Hin. apply (Hsep name); [by eapply list_elem_of_lookup_2|].
    apply elem_of_app. by left. }
  assert (Hrn : r ≠ name).
  { intros ->. apply HrP. by eapply list_elem_of_lookup_2. }
  pose proof (lookup_lt_Some _ _ _ Hname) as HltP.
  pose proof (lookup_lt_Some _ _ _ Hr) as HltC.
  assert (HrD : r ∉ delete memberIndex (priorityCarry st)).
  { rewrite <- (take_drop_middle _ _ _ Hr) in HndC.
    rewrite delete_take_drop. apply NoDup_app in HndC as (_ & Hs & Hd).
    apply NoDup_cons in Hd as [Hout _]. rewrite elem_of_app.
    intros [Hin|Hin]; [|done]. apply (Hs r Hin). by left. }
  unfold handleDropToPriorityChip. fields. cbn [canDrop negb removeFromSource].
  simpl. fields. rewrite Hr. cbn [truthy].
  rewrite (bool_decide_eq_false_2 (r = "")) by done.
  rewrite kept_filter.
  rewrite (filter_all (λ n, n ≠ name) (delete memberIndex (priorityCarry st))).
  2:{ intros x Hx ->. apply HnC. rewrite delete_take_drop in Hx.
      rewrite <- (take_drop memberIndex (priorityCarry st)).
      rewrite elem_of_app in Hx. rewrite elem_of_app.
      destruct Hx as [?|Hx]; [by left|right].
      rewrite <- (take_drop 1 (drop memberIndex (priorityCarry st))).
      rewrite drop_drop, elem_of_app. right.
      by replace (memberIndex + 1) with (S memberIndex) by lia. }
  unfold returnReplacedToSource.
  rewrite (bool_decide_eq_false_2 (r = "")) by done.
  eexists. split; [done|]. unfold addToParticipants. fields.
  assert (HfP : filter (λ n, n ≠ r) (delete fromIndex (participants st))
                = delete fromIndex (participants st)).
  { apply filter_all. intros x Hx ->. apply HrP.
    rewrite delete_take_drop in Hx.
    rewrite <- (take_drop fromIndex (participants st)).
    rewrite elem_of_app in Hx. rewrite elem_of_app.
    destruct Hx as [?|Hx]; [by left|right].
    rewrite <- (take_drop 1 (drop fromIndex (participants st))).
    rewrite drop_drop, elem_of_app. right.
    by replace (fromIndex + 1) with (S fromIndex) by lia. }
  assert (HfC : filter (λ n, n ≠ r) (name :: delete memberIndex (priorityCarry st))
                = name :: delete memberIndex (priorityCarry st)).
  { apply filter_all. intros x [->|Hx]%elem_of_cons; [done|]. by intros ->. }
  rewrite HfP, HfC.
  assert (Hparts : spliceIn (fromIndex `min` length (delete fromIndex (participants st)))
                     r (delete fromIndex (participants st))
                   = <[fromIndex := r]> (participants st)).
  { rewrite length_delete by eauto. rewrite Nat.min_l by lia.
    unfold spliceIn. rewrite delete_take_drop, insert_take_drop by done.
    assert (Hl : length (take fromIndex (participants st)) = fromIndex).
    { rewrite length_take. lia. }
    rewrite take_app_length' by done. rewrite drop_app_length' by done. done. }
  rewrite Hparts. split_and!; try done.
  unfold allPlayers. fields.
  rewrite insert_take_drop by done.
  rewrite <- (take_drop_middle _ _ _ Hname) at 3.
  rewrite <- (take_drop_middle _ _ _ Hr) at 2.
  rewrite delete_take_drop. rewrite <- !app_assoc. simpl.
  apply Permutation_app_head. solve_Permutation.
Qed.

Lemma returnReplaced_court_fills (r : string) (courtId memberIndex : nat) (st : State) :
  r ≠ "" →
  ∃ st1, returnReplacedToSource r (FromCourt courtId memberIndex) st = Some st1 ∧
    Forall (λ c, is_Some (court_team c)) (courts st1) ∧
    length (courts st1) = length (courts st).
Proof.
  intros Hne. unfold returnReplacedToSource.
  rewrite bool_decide_eq_false_2 by done. eexists. split; [done|]. fields.
  set (next := (λ c, setTeam c (Some (default [] (court_team c)))) <$> courts st).
  assert (Hall : Forall (λ c, is_Some (court_team c)) next).
  { unfold next. apply Forall_fmap, Forall_forall. intros c _. by eexists. }
  assert (Hlen : length next = length (courts st)) by apply length_fmap.
  destruct (findCourt next courtId) as [[idx c]|]; [|done]. split.
  - apply Forall_insert; [done|]. by eexists.
  - by rewrite length_insert.
Qed.

Lemma handleMakeTeams_none_free (rnd : RandomSource) fuel (st : State) pos st' pos' :
  Forall (λ c, is_Some (court_team c)) (courts st) →
  handleMakeTeams rnd fuel st pos = Some (st', pos') →
  courts st' = courts st.
Proof.
  intros Hall. unfold handleMakeTeams. case_bool_decide.
  - by intros [= <- <-].
  - destruct (formTeams rnd fuel st pos) as [[f p]|]; [|done].
    intros [= <- <-]. by apply seatTeams_none_free.
Qed.

(** X28. A chip of a court that changes places with another chip gives
    every court without a team the empty array as its team, when the
    player dropped on goes back to the court: after a drop on a chip of
    the carry-over, or on a chip of another court that is not disabled,
    every court has a team, so none takes a team in a formation run, which
    leaves all courts as they are. *)
Theorem chip_swap_from_court (name : string) (sourceCourt sourceIndex : nat) (st : State) :
  let data := {| drag_name := name; drag_from := FromCourt sourceCourt sourceIndex |} in
  (∀ memberIndex r, truthy (priorityCarry st !! memberIndex) = Some r →
     ∃ st', handleDropToPriorityChip data memberIndex st = Some st' ∧
       Forall (λ c, is_Some (court_team c)) (courts st') ∧
       length (courts st') = length (courts st) ∧
       ∀ (rnd : RandomSource) fuel pos st2 pos2,
         handleMakeTeams rnd fuel st' pos = Some (st2, pos2) → courts st2 = courts st') ∧
  (∀ courtId memberIndex idx c r,
     courtId ≠ sourceCourt →
     isCourtDisabled (disabledCourtsOnce st) courtId = false →
     findCourt (courts st) courtId = Some (idx, c) →
     truthy (default [] (court_team c) !! memberIndex) = Some r →
     ∃ st', handleDropToCourtChip data courtId memberIndex st = Some st' ∧
       Forall (λ c, is_Some (court_team c)) (courts st') ∧
       ∀ (rnd : RandomSource) fuel pos st2 pos2,
         handleMakeTeams rnd fuel st' pos = Some (st2, pos2) → courts st2 = courts st').
Proof.
  intros data. split.
  - intros memberIndex r Hr. unfold handleDropToPriorityChip, data. fields.
    cbn [canDrop negb removeFromSource]. simpl. fields. rewrite Hr.
    assert (Hne : r ≠ "").
    { destruct (priorityCarry st !! memberIndex) as [r0|]; [|done]. simpl in Hr.
      case_bool_decide; [done|]. by injection Hr as <-. }
    match goal with |- ∃ st', returnReplacedToSource r _ ?s = _ ∧ _ =>
      destruct (returnReplaced_court_fills r sourceCourt sourceIndex s Hne)
        as (st' & Hret & Hall & Hlen) end.
    exists st'. split; [done|]. split; [done|]. split.
    + rewrite Hlen. fields.
      destruct (findCourt (courts st) sourceCourt) as [[i0 c0]|]; [|done].
      destruct (court_team c0); [|done]. by rewrite length_insert.
    + intros rnd fuel pos st2 pos2. by apply handleMakeTeams_none_free.
  - intros courtId memberIndex idx c r Hother Hen Hfind Hr.
    unfold handleDropToCourtChip, data. fields. cbn [canDrop].
    rewrite (bool_decide_eq_false_2 (sourceCourt = courtId)) by done.
    rewrite Hen, Hfind. cbn [negb orb removeFromSource]. simpl. rewrite Hr.
    assert (Hne : r ≠ "").
    { destruct (default [] (court_team c) !! memberIndex) as [r0|]; [|done].
      simpl in Hr. case_bool_decide; [done|]. by injection Hr as <-. }
    match goal with |- ∃ st', returnReplacedToSource r _ ?s = _ ∧ _ =>
      destruct (returnReplaced_court_fills r sourceCourt sourceIndex s Hne)
        as (st' & Hret & Hall & Hlen) end.
    exists st'. split; [done|]. split; [done|].
    intros rnd fuel pos st2 pos2. by apply handleMakeTeams_none_free.
Qed.

Lemma insert_delete_perm (l : list string) i x y :
  l !! i = Some x → <[i := y]> l ≡ₚ y :: delete i l.
Proof.
  intros Hx. rewrite insert_take_drop by (by eapply lookup_lt_Some).
  rewrite delete_take_drop. symmetry. apply Permutation_middle.
Qed.

Lemma not_elem_of_delete (l : list string) i x : x ∉ l → x ∉ delete i l.
Proof.
  intros Hout Hin. apply Hout. rewrite delete_take_drop in Hin.
  rewrite <- (take_drop i l). rewrite elem_of_app in Hin. rewrite elem_of_app.
  destruct Hin as [?|Hin]; [by left|right].
  rewrite <- (take_drop 1 (drop i l)).
  rewrite drop_drop, elem_of_app. right.
  by replace (i + 1) with (S i) by lia.
Qed.

(** X29. A chip of the waiting pool dropped on a chip of a court that is
    not disabled changes places with it: when every player is listed
    once, the player dragged has the position of the chip in the team, the
    player dropped on has the position the other had in the waiting pool,
    and the players listed are the same as before. *)
Theorem handleDropToCourtChip_swap (name r : string) (fromIndex courtId memberIndex : nat)
    (st : State) idx c t :
  NoDup (allPlayers st) →
  participants st !! fromIndex = Some name →
  findCourt (courts st) courtId = Some (idx, c) →
  court_team c = Some t →
  t !! memberIndex = Some r →
  r ≠ "" →
  isCourtDisabled (disabledCourtsOnce st) courtId = false →
  ∃ st',
    handleDropToCourtChip
      {| drag_name := name; drag_from := FromParticipants fromIndex |}
      courtId memberIndex st = Some st' ∧
    participants st' = <[fromIndex := r]> (participants st) ∧
    courts st' = <[idx := setTeam c (Some (<[memberIndex := name]> t))]> (courts st) ∧
    priorityCarry st' = priorityCarry st ∧
    teamQueue st' = teamQueue st ∧
    allPlayers st' ≡ₚ allPlayers st.
Proof.
  intros Hnd Hname Hfind Hteam Hr Hne Hen.
  pose proof (findCourt_lookup _ _ _ _ Hfind) as [Hc _].
  assert (Hron : r ∈ concat (omap court_team (courts st))).
  { rewrite (teams_at _ _ _ Hc), Hteam. simpl. apply elem_of_app. left.
    by eapply list_elem_of_lookup_2. }
  unfold allPlayers in Hnd.
  apply NoDup_app in Hnd as (HndP & Hsep & Hnd).
  apply NoDup_app in Hnd as (HndC & Hsep2 & _).
  assert (HrP : r ∉ participants st).
  { intros Hin. apply (Hsep r Hin). rewrite !elem_of_app. tauto. }
  assert (HrC : r ∉ priorityCarry st).
  { intros Hin. apply (Hsep2 r Hin). rewrite !elem_of_app. tauto. }
  pose proof (lookup_lt_Some _ _ _ Hname) as HltP.
  unfold handleDropToCourtChip. fields. cbn [canDrop negb orb removeFromSource].
  rewrite Hen, Hfind, Hteam. simpl. fields. rewrite Hr. cbn [truthy].
  rewrite (bool_decide_eq_false_2 (r = "")) by done.
  unfold addToCourt. fields. rewrite Hen, Hfind, Hteam. simpl. rewrite Hr. fields.
  unfold returnReplacedToSource.
  rewrite (bool_decide_eq_false_2 (r = "")) by done.
  eexists. split; [done|]. unfold addToParticipants. fields.
  rewrite (filter_all (λ n, n ≠ r) (delete fromIndex (participants st)))
    by (intros x Hx ->; by apply (not_elem_of_delete _ fromIndex _ HrP)).
  rewrite (filter_all (λ n, n ≠ r) (priorityCarry st)) by (by intros x Hx ->).
  assert (Hparts : spliceIn (fromIndex `min` length (delete fromIndex (participants st)))
                     r (delete fromIndex (participants st))
                   = <[fromIndex := r]> (participants st)).
  { rewrite length_delete by eauto. rewrite Nat.min_l by lia.
    unfold spliceIn. rewrite delete_take_drop, insert_take_drop by done.
    assert (Hl : length (take fromIndex (participants st)) = fromIndex).
    { rewrite length_take. lia. }
    rewrite take_app_length' by done. rewrite drop_app_length' by done. done. }
  rewrite Hparts. split_and!; try done.
  unfold allPlayers. fields.
  pose proof (insert_delete_perm _ _ _ r Hname) as H1.
  pose proof (delete_Permutation _ _ _ Hname) as H2.
  assert (H3 : concat (omap court_team
                 (<[idx := setTeam c (Some (<[memberIndex := name]> t))]> (courts st)))
               ≡ₚ (name :: delete memberIndex t)
                  ++ concat (omap court_team (<[idx := setTeam c None]> (courts st)))).
  { etrans; [apply (teams_insert _ _ _ _ Hc)|]. cbn [default].
    apply Permutation_app_tail. apply (insert_delete_perm _ _ _ name Hr). }
  assert (H4 : concat (omap court_team (courts st))
               ≡ₚ (r :: delete memberIndex t)
                  ++ concat (omap court_team (<[idx := setTeam c None]> (courts st)))).
  { etrans; [apply (teams_at _ _ _ Hc)|]. rewrite Hteam. cbn [default].
    apply Permutation_app_tail. apply (delete_Permutation _ _ _ Hr). }
  etrans.
  { apply Permutation_app; [exact H1|]. do 2 apply Permutation_app_head. exact H3. }
  symmetry. etrans.
  { apply Permutation_app; [exact H2|]. do 2 apply Permutation_app_head. exact H4. }
  solve_Permutation.
Qed.

(** X30. A chip that is alone in its queued team, dropped on a chip of the
    carry-over, sends the player dropped on into the next queued team:
    the emptied team is taken out of the queue first, so the team after it
    has its index when the replaced player is put back.  The queue has one
    team less, and the team that was next has one player more, five when
    it had four. *)
Theorem handleDropToPriorityChip_lone (name r : string) (teamIndex memberIndex : nat)
    (st : State) (nextTeam : list string) :
  teamQueue st !! teamIndex = Some [name] →
  teamQueue st !! S teamIndex = Some nextTeam →
  priorityCarry st !! memberIndex = Some r →
  r ≠ "" →
  ∃ st',
    handleDropToPriorityChip
      {| drag_name := name; drag_from := FromQueue teamIndex 0 |} memberIndex st
    = Some st' ∧
    teamQueue st' = <[teamIndex := r :: nextTeam]> (delete teamIndex (teamQueue st)) ∧
    teamQueue st' !! teamIndex = Some (r :: nextTeam) ∧
    S (length (teamQueue st')) = length (teamQueue st) ∧
    priorityCarry st'
      = name :: filter (λ n, n ≠ name) (delete memberIndex (priorityCarry st)) ∧
    participants st' = participants st ∧ courts st' = courts st.
Proof.
  intros Hlone Hnext Hr Hne.
  pose proof (lookup_lt_Some _ _ _ Hnext) as Hlt.
  unfold handleDropToPriorityChip. fields. cbn [canDrop negb removeFromSource].
  rewrite Hlone. simpl. fields. rewrite Hr. cbn [truthy].
  rewrite (bool_decide_eq_false_2 (r = "")) by done.
  rewrite kept_filter. unfold returnReplacedToSource.
  rewrite (bool_decide_eq_false_2 (r = "")) by done. fields.
  assert (Hat : delete teamIndex (teamQueue st) !! teamIndex = Some nextTeam).
  { rewrite list_lookup_delete_ge by lia. done. }
  rewrite Hat. eexists. split; [done|]. fields. unfold spliceIn. simpl.
  split_and!; try done.
  - rewrite list_lookup_insert_eq; [done|]. by eapply lookup_lt_Some.
  - rewrite length_insert, length_delete by eauto. lia.
Qed.

End DragProperties.

(** * The engine on examples *)

(** The checks the component runs on itself when it mounts. *)
Example devtest_signature :
  teamSignature (H:=byteHost) ["b"; "a"; "c"] = teamSignature (H:=byteHost) ["c"; "b"; "a"].
Proof. reflexivity. Qed.

Example devtest_repeat :
  isExactRepeatTeamWithMap (H:=byteHost) ["A"; "B"; "C"; "D"]
    (markTeamAsStarted (H:=byteHost) ["A"; "B"; "C"; "D"] ∅) = true.
Proof. vm_compute. reflexivity. Qed.

Example devtest_merge :
  mergeRestOnceBack ["A"; "B"; "C"; "D"; "E"] ["A"] = ["A"].
Proof. vm_compute. reflexivity. Qed.


(** The example of the specification: carry-over [X], two waiting players,
    one of them at rest. *)
Lemma handleMakeTeams_too_few_witness :
  ∃ st', handleMakeTeams (H:=byteHost) rndZero 0 fewState 0 = Some (st', 0) ∧
    restOnce st' = [] ∧ priorityCarry st' = ["X"] ∧ participants st' = ["Y"; "Z"].
Proof.
  destruct (handleMakeTeams_too_few (H:=byteHost) rndZero 0 fewState 0)
    as (st' & Hrun & Hrest & Hp & Hc & _); [vm_compute; lia|].
  exists st'. by rewrite Hrun, Hrest, Hp, Hc.
Defined.




(** The example of the specification: from three courts to one. *)
Lemma applyCourtCount_spec_witness :
  teamQueue (applyCourtCount 1 resizeState)
    = [["A1"; "A2"; "A3"; "A4"]; ["B1"; "B2"; "B3"; "B4"]; ["Q1"; "Q2"; "Q3"; "Q4"]] ∧
  court_id <$> courts (applyCourtCount 1 resizeState) = [1] ∧
  (3 ∉ disabledCourtsOnce (applyCourtCount 1 resizeState)) ∧
  court_id <$> courts (applyCourtCount 4 resizeState) = [1; 2; 3; 4].
Proof.
  destruct (applyCourtCount_spec 1 resizeState) as (Hshrink & _).
  destruct Hshrink as (Hids & _ & _ & Hq & Hdis); [vm_compute; lia|].
  split; [exact Hq|]. split; [exact Hids|]. split.
  - rewrite Hdis. vm_compute. lia.
  - reflexivity.
Defined.


(** Nine waiting players: two teams of four and one player carried over. *)
Lemma handleMakeTeams_conserves_witness :
  ∃ st' pos' f,
    handleMakeTeams (H:=byteHost) rndHalf 9
      nineState 0
    = Some (st', pos') ∧
    formTeams (H:=byteHost) rndHalf 9
      nineState 0
    = Some (f, pos') ∧
    priorityTeamsOut f ++ otherTeamsOut f
      = [["E"; "D"; "F"; "C"]; ["G"; "B"; "H"; "A"]] ∧
    priorityCarry st' = ["I"] ∧
    NoDup (concat (priorityTeamsOut f ++ otherTeamsOut f) ++ priorityCarry st').
Proof.
  set (st := nineState).
  assert (Hfour : 4 ≤ totalAvailable st) by (vm_compute; lia).
  destruct (handleMakeTeams (H:=byteHost) rndHalf 9 st 0)
    as [[st' pos']|] eqn:Erun; [|by vm_compute in Erun].
  destruct (handleMakeTeams_conserves (H:=byteHost) rndHalf 9 st 0 st' pos' Hfour Erun)
    as (f & Hf & Hcarry & _ & _ & _ & Hnd).
  exists st', pos', f. split; [reflexivity|]. split; [exact Hf|].
  destruct Hnd as (Hnd & _).
  { apply (bool_decide_unpack _). vm_compute. exact I. }
  { apply NoDup_nil_2. }
  vm_compute in Erun. injection Erun as <- <-.
  vm_compute in Hf. injection Hf as <-.
  split; [reflexivity|]. split; [reflexivity|]. exact Hnd.
Defined.

(** In [overlapState] the name [D] is both waiting and carried over: nine
    eligible entries go in, two teams of four and an empty carry-over come
    out, and one of the teams lists [A] twice. *)
Lemma handleMakeTeams_overlap_counterexample :
  ∃ st' pos' f,
    4 ≤ totalAvailable overlapState ∧
    handleMakeTeams (H:=byteHost) rndZero 32 overlapState 0 = Some (st', pos') ∧
    formTeams (H:=byteHost) rndZero 32 overlapState 0 = Some (f, pos') ∧
    eligibleParticipants overlapState = ["E"; "B"; "C"; "D"; "A"; "A"; "B"; "C"] ∧
    eligiblePriorityCarry overlapState = ["D"] ∧
    priorityTeamsOut f ++ otherTeamsOut f
      = [["D"; "E"; "B"; "C"]; ["A"; "A"; "B"; "C"]] ∧
    priorityCarry st' = [] ∧
    ¬ (concat (priorityTeamsOut f ++ otherTeamsOut f) ++ priorityCarry st'
         ≡ₚ eligibleParticipants overlapState ++ eligiblePriorityCarry overlapState) ∧
    ¬ NoDup ["A"; "A"; "B"; "C"].
Proof.
  destruct (handleMakeTeams (H:=byteHost) rndZero 32 overlapState 0)
    as [[st' pos']|] eqn:Erun; [|by vm_compute in Erun].
  destruct (formTeams (H:=byteHost) rndZero 32 overlapState 0)
    as [[f pos'']|] eqn:Ef; [|by vm_compute in Ef].
  vm_compute in Erun. injection Erun as <- <-.
  vm_compute in Ef. injection Ef as <- <-.
  eexists _, _, _. split; [vm_compute; lia|]. split; [reflexivity|].
  split; [reflexivity|]. split; [vm_compute; reflexivity|].
  split; [vm_compute; reflexivity|]. split; [reflexivity|]. split; [reflexivity|].
  split.
  - intros Hp%Permutation_length. vm_compute in Hp. lia.
  - intros Hnd. apply NoDup_cons_1_1 in Hnd. apply Hnd. by left.
Defined.


(** A waiting pool of distinct names: the run completes. *)
Example handleMakeTeams_terminates_example :
  is_Some (handleMakeTeams (H:=byteHost) rndHalf 9
    nineState 0).
Proof.
  apply handleMakeTeams_terminates.
  - apply (bool_decide_unpack _). vm_compute. exact I.
  - apply NoDup_nil_2.
  - vm_compute. lia.
Qed.

(** ** Further examples *)


Ltac listed := apply (bool_decide_unpack _); vm_compute; exact I.



(** The team that has just played is drawn again and [E] is left: [E]
    takes the place of [A]. *)
Lemma tryBreak_breaks_witness :
  ∃ group tail,
    tryBreak (H:=byteHost) (markTeamAsStarted (H:=byteHost) ["A"; "B"; "C"; "D"] ∅)
      ["A"; "B"; "C"; "D"] ["E"] = Some (group, tail) ∧
    group = ["E"; "B"; "C"; "D"] ∧ tail = ["A"].
Proof.
  destruct (tryBreak_breaks (H:=byteHost)
              (markTeamAsStarted (H:=byteHost) ["A"; "B"; "C"; "D"] ∅)
              ["A"; "B"; "C"; "D"] ["E"]) as (group & tail & Hrun & _).
  - vm_compute. reflexivity.
  - done.
  - listed.
  - exists group, tail. split; [exact Hrun|].
    vm_compute in Hrun. by injection Hrun as <- <-.
Defined.

(** Court 2 of [resizeState] is switched off and on again. *)
Lemma toggleDisableCourtOnce_round_trip_witness :
  courts (toggleDisableCourtOnce (H:=byteHost) 2
            (toggleDisableCourtOnce (H:=byteHost) 2 resizeState))
    = courts resizeState ∧
  teamQueue (toggleDisableCourtOnce (H:=byteHost) 2
               (toggleDisableCourtOnce (H:=byteHost) 2 resizeState))
    = teamQueue resizeState ∧
  lastTeamSigByPlayer (toggleDisableCourtOnce (H:=byteHost) 2
                         (toggleDisableCourtOnce (H:=byteHost) 2 resizeState)) !! "A1"
    = Some "A1|A2|A3|A4".
Proof.
  rewrite (toggleDisableCourtOnce_round_trip (H:=byteHost) 2 resizeState 1
             (courtWith 2 (Some ["A1"; "A2"; "A3"; "A4"])) "A1" ["A2"; "A3"; "A4"]).
  - split; [reflexivity|]. split; reflexivity.
  - reflexivity.
  - reflexivity.
  - listed.
Defined.

(** The initial state has numbered courts, and so has it with five. *)
Lemma courtsNumbered_kept_witness :
  courtsNumbered (applyCourtCount 5 emptyState) ∧
  findCourt (courts emptyState) 2 = Some (1, courtWith 2 None) ∧
  findCourt (courts emptyState) 3 = None.
Proof.
  destruct (courtsNumbered_kept (H:=byteHost) emptyState)
    as (Hcount & _ & _ & _ & _ & Hfind & Hnone).
  { split; [reflexivity|]. intros id Hid. by apply elem_of_nil in Hid. }
  split; [apply Hcount|]. split.
  - destruct (Hfind 2) as (c & Hc & ->); [vm_compute; lia|].
    vm_compute in Hc. by injection Hc as <-.
  - apply Hnone. vm_compute. lia.
Defined.

(** [C] is removed from the nine waiting players. *)
Lemma handleRemoveParticipant_spec_witness :
  length (participants (handleRemoveParticipant "C" 2 nineState)) = 8 ∧
  ("C" ∉ participants (handleRemoveParticipant "C" 2 nineState)).
Proof.
  destruct (handleRemoveParticipant_spec "C" 2 nineState eq_refl)
    as (_ & Hlen & Hout & _).
  split.
  - apply eq_add_S. cbv zeta in Hlen. rewrite <- Hlen. reflexivity.
  - apply Hout. listed.
Defined.

(** Nine waiting players: two teams and one player carried over. *)
Lemma handleMakeTeams_carry_witness :
  ∃ st' pos' f,
    handleMakeTeams (H:=byteHost) rndHalf 9 nineState 0 = Some (st', pos') ∧
    formTeams (H:=byteHost) rndHalf 9 nineState 0 = Some (f, pos') ∧
    length (priorityTeamsOut f ++ otherTeamsOut f) = 2 ∧
    length (priorityCarry st') = 1.
Proof.
  assert (Hfour : 4 ≤ totalAvailable nineState) by (vm_compute; lia).
  destruct (handleMakeTeams (H:=byteHost) rndHalf 9 nineState 0)
    as [[st' pos']|] eqn:Erun; [|by vm_compute in Erun].
  destruct (handleMakeTeams_carry (H:=byteHost) rndHalf 9 nineState 0 st' pos'
              Hfour Erun) as (f & Hf & _ & Hteams & Hcarry & _).
  exists st', pos', f. split; [reflexivity|]. split; [exact Hf|].
  split; [exact Hteams|exact Hcarry].
Defined.

(** The two teams of the nine players take the two courts. *)
Lemma handleMakeTeams_teams_witness :
  ∃ st' pos',
    handleMakeTeams (H:=byteHost) rndHalf 9 nineState 0 = Some (st', pos') ∧
    length (omap court_team (courts st') ++ teamQueue st') = 2 ∧
    participants st' = [].
Proof.
  assert (Hfour : 4 ≤ totalAvailable nineState) by (vm_compute; lia).
  destruct (handleMakeTeams (H:=byteHost) rndHalf 9 nineState 0)
    as [[st' pos']|] eqn:Erun; [|by vm_compute in Erun].
  destruct (handleMakeTeams_teams (H:=byteHost) rndHalf 9 nineState 0 st' pos'
              Hfour Erun) as (f & Hf & Hteams & Hwait & _).
  exists st', pos'. split; [reflexivity|]. split; [|exact Hwait].
  apply Permutation_length in Hteams. rewrite Hteams.
  vm_compute in Hf. injection Hf as <- _. reflexivity.
Defined.

(** Nine different names: the run completes with nine passes or more. *)
Lemma handleMakeTeams_completes_witness :
  ∃ st' pos',
    handleMakeTeams (H:=byteHost) rndHalf 9 nineState 0 = Some (st', pos') ∧
    handleMakeTeams (H:=byteHost) rndHalf 40 nineState 0 = Some (st', pos').
Proof.
  destruct (handleMakeTeams_completes (H:=byteHost) rndHalf nineState 0)
    as (st' & pos' & Hrun).
  - listed.
  - apply NoDup_nil_2.
  - exists st', pos'. split; apply Hrun; vm_compute; lia.
Defined.

(** Nine waiting players, one of them at rest: the button is enabled. *)
Lemma makeTeamsDisabled_spec_witness :
  makeTeamsDisabled (handleRestOnce "A" nineState) = false ∧
  4 ≤ totalAvailable (handleRestOnce "A" nineState).
Proof.
  destruct (makeTeamsDisabled_spec (handleRestOnce "A" nineState)) as [Hon _].
  - listed.
  - listed.
  - split; [reflexivity|]. by apply Hon.
Defined.

(** [A] is dragged from court 1 of [threeCourtState] to the waiting pool. *)
Lemma drop_moves_player_witness :
  ∃ st',
    handleDropToParticipants
      {| drag_name := "A"; drag_from := FromCourt 1 0 |} threeCourtState = Some st' ∧
    participants st' = ["A"] ∧
    court_team <$> courts st'
      = [Some ["B"; "C"; "D"]; Some ["E"; "F"; "G"; "H"]; None] ∧
    allPlayers st' ≡ₚ allPlayers threeCourtState.
Proof.
  destruct (drop_moves_player {| drag_name := "A"; drag_from := FromCourt 1 0 |}
              threeCourtState) as [(st' & Hrun & Hperm & _ & _ & _ & Hwait) _].
  - listed.
  - reflexivity.
  - exists st'. split; [exact Hrun|]. split; [exact Hwait|]. split; [|exact Hperm].
    vm_compute in Hrun. by injection Hrun as <-.
Defined.

(** [A], at rest in the carry-over of [restingCarryState], is gone after
    the run that makes a team of the four others. *)
Lemma handleMakeTeams_forgets_witness :
  ∃ st' pos',
    handleMakeTeams (H:=byteHost) rndZero 5 restingCarryState 0 = Some (st', pos') ∧
    priorityCarry restingCarryState = ["A"] ∧
    ("A" ∉ getAllNamesSet st') ∧
    allPlayers st' = ["B"; "C"; "D"; "E"].
Proof.
  destruct (handleMakeTeams (H:=byteHost) rndZero 5 restingCarryState 0)
    as [[st' pos']|] eqn:Erun; [|by vm_compute in Erun].
  destruct (handleMakeTeams_forgets (H:=byteHost) rndZero 5 restingCarryState 0
              st' pos' "A") as [_ Hgone].
  - vm_compute. lia.
  - exact Erun.
  - listed.
  - listed.
  - listed.
  - listed.
  - listed.
  - exists st', pos'. split; [reflexivity|]. split; [reflexivity|].
    split; [exact Hgone|].
    vm_compute in Erun. by injection Erun as <- <-.
Defined.

(** [I] is dragged from the carry-over of [threeCourtState] to the empty
    court 3; a drop on the full court 1 is refused. *)
Lemma handleDropToCourtContainer_spec_witness :
  (∃ st',
     handleDropToCourtContainer
       {| drag_name := "I"; drag_from := FromPriority 0 |} 3 threeCourtState = Some st' ∧
     court_team <$> courts st' !! 2 = Some (Some ["I"]) ∧
     priorityCarry st' = []) ∧
  handleDropToCourtContainer
    {| drag_name := "I"; drag_from := FromPriority 0 |} 1 threeCourtState
  = Some threeCourtState.
Proof.
  split.
  - destruct (handleDropToCourtContainer_spec
                {| drag_name := "I"; drag_from := FromPriority 0 |} 3 threeCourtState
                2 (courtWith 3 None) eq_refl eq_refl) as [_ Hmove].
    destruct Hmove as (st' & Hrun & Hteam & _); [reflexivity|vm_compute; lia|reflexivity|].
    exists st'. split; [exact Hrun|]. split; [exact Hteam|].
    vm_compute in Hrun. by injection Hrun as <-.
  - destruct (handleDropToCourtContainer_spec
                {| drag_name := "I"; drag_from := FromPriority 0 |} 1 threeCourtState
                0 (courtWith 1 (Some ["A"; "B"; "C"; "D"])) eq_refl eq_refl)
      as [Hrefuse _].
    apply Hrefuse. right. left. vm_compute. lia.
Defined.

(** [J], who waits in [lateState], is dropped on [I] in the carry-over. *)
Lemma handleDropToPriorityChip_swap_witness :
  ∃ st',
    handleDropToPriorityChip
      {| drag_name := "J"; drag_from := FromParticipants 0 |} 0 lateState = Some st' ∧
    participants st' = ["I"] ∧ priorityCarry st' = ["J"].
Proof.
  destruct (handleDropToPriorityChip_swap "J" "I" 0 0 lateState)
    as (st' & Hrun & Hwait & Hcarry & _).
  - listed.
  - reflexivity.
  - reflexivity.
  - done.
  - exists st'. split; [exact Hrun|]. split; [exact Hwait|exact Hcarry].
Defined.

(** [A] on court 1 of [lateState] is dropped on [I] in the carry-over: the
    empty court 3 has the empty team afterwards, and the next run seats
    nobody on it. *)
Lemma chip_swap_from_court_witness :
  ∃ st',
    handleDropToPriorityChip
      {| drag_name := "A"; drag_from := FromCourt 1 0 |} 0 lateState = Some st' ∧
    court_team <$> courts st'
      = [Some ["I"; "B"; "C"; "D"]; Some ["E"; "F"; "G"; "H"]; Some []] ∧
    Forall (λ c, is_Some (court_team c)) (courts st').
Proof.
  destruct (chip_swap_from_court (H:=byteHost) "A" 1 0 lateState) as [Hchip _].
  destruct (Hchip 0 "I" eq_refl) as (st' & Hrun & Hall & _).
  exists st'. split; [exact Hrun|]. split; [|exact Hall].
  vm_compute in Hrun. by injection Hrun as <-.
Defined.

(** [J], who waits in [lateState], is dropped on [A] on court 1. *)
Lemma handleDropToCourtChip_swap_witness :
  ∃ st',
    handleDropToCourtChip
      {| drag_name := "J"; drag_from := FromParticipants 0 |} 1 0 lateState = Some st' ∧
    participants st' = ["A"] ∧
    court_team <$> courts st'
      = [Some ["J"; "B"; "C"; "D"]; Some ["E"; "F"; "G"; "H"]; None].
Proof.
  destruct (handleDropToCourtChip_swap "J" "A" 0 1 0 lateState 0
              (courtWith 1 (Some ["A"; "B"; "C"; "D"])) ["A"; "B"; "C"; "D"])
    as (st' & Hrun & Hwait & Hcourts & _).
  - listed.
  - reflexivity.
  - reflexivity.
  - reflexivity.
  - reflexivity.
  - done.
  - reflexivity.
  - exists st'. split; [exact Hrun|]. split; [exact Hwait|].
    rewrite Hcourts. reflexivity.
Defined.

(** [D], alone in the first queued team of [loneQueuedState], is dropped
    on [I] in the carry-over: [I] joins the four players of the other
    team. *)
Lemma handleDropToPriorityChip_lone_witness :
  teamQueue loneQueuedState = [["D"]; ["E"; "F"; "G"; "H"]] ∧
  ∃ st',
    handleDropToPriorityChip
      {| drag_name := "D"; drag_from := FromQueue 0 0 |} 0 loneQueuedState = Some st' ∧
    teamQueue st' = [["I"; "E"; "F"; "G"; "H"]] ∧
    priorityCarry st' = ["D"].
Proof.
  split; [reflexivity|].
  destruct (handleDropToPriorityChip_lone "D" "I" 0 0 loneQueuedState
              ["E"; "F"; "G"; "H"]) as (st' & Hrun & Hqueue & _ & _ & Hcarry & _).
  - reflexivity.
  - reflexivity.
  - reflexivity.
  - done.
  - exists st'. split; [exact Hrun|]. split.
    + rewrite Hqueue. reflexivity.
    + rewrite Hcarry. reflexivity.
Defined.
